(** * Keyframe conversion of the meshcat HTML importer

    A shallow embedding of
    [meshcat_html_importer/animation/keyframe_converter.py] and the
    properties its specification states about it.

    The module is embedded twice.

    - Over the real numbers of the Standard Library (the definitions at top
      level).  The arithmetic is exact there: no rounding, no NaN, no
      infinity.  This embedding carries what rests on order, on structure
      and on algebra: the guards, sorting and bisection, the clamps, the
      missing channels, unit quaternions.  Comparisons of floats are exact,
      so these facts pass to the code for inputs that are numbers.

    - Over binary64 (module [F64], on the primitive floats).  There every
      operation rounds as the interpreter's does, and [int()] and [round()]
      raise on an infinity or NaN.  This embedding carries what depends on
      rounding: the number of frames, the frame of a sample, the weight of
      an interpolation, the exceptions.  It computes, so its examples are
      evaluated.

    In both, Python's own behaviour is kept: [/] raises [ZeroDivisionError]
    on a zero divisor, list indexing raises [IndexError] out of range,
    [int()] truncates toward zero and [round()] rounds half-way cases to the
    even integer. *)

From Stdlib Require Import Reals Lra Lia ZArith List Bool Arith Psatz Sorted.
From Stdlib Require Import Permutation.
From Stdlib Require PrimFloat SpecFloat FloatOps FloatAxioms.
From Equations Require Import Equations.
Import ListNotations.

Open Scope R_scope.

(* ================================================================= *)
(** * Python semantics used by the module *)

Module Py.

(** Exceptions the converter can raise. *)
Inductive PyError : Type :=
  | ZeroDivisionError
  | IndexError
  | OverflowError
  | ValueError.

(** A computation either returns a value or raises. *)
Inductive result (A : Type) : Type :=
  | Ok (a : A)
  | Raise (e : PyError).

Arguments Ok {A} a.
Arguments Raise {A} e.

Definition bind {A B : Type} (c : result A) (k : A -> result B) : result B :=
  match c with
  | Ok a => k a
  | Raise e => Raise e
  end.

(** Comparisons of numbers, as booleans. *)
Definition ltb (a b : R) : bool := if Rlt_dec a b then true else false.
Definition leb (a b : R) : bool := if Rle_dec a b then true else false.
Definition eqb (a b : R) : bool := if Req_dec_T a b then true else false.

(** [a / b]: true division; a zero divisor raises. *)
Definition div (a b : R) : result R :=
  if eqb b 0 then Raise ZeroDivisionError else Ok (a / b).

(** [int(x)]: truncation toward zero. *)
Definition int (x : R) : Z :=
  if leb 0 x then Zfloor x else Zceil x.

(** [round(x)] with one argument: the nearest integer, a tie going to the
    even neighbour. *)
Definition round (x : R) : Z :=
  let n := Zfloor x in
  let d := x - IZR n in
  if ltb d (1 / 2) then n
  else if ltb (1 / 2) d then (n + 1)%Z
  else if Z.even n then n else (n + 1)%Z.

(** [max(a, b)]: the first of the largest arguments. *)
Definition max (a b : R) : R := if ltb a b then b else a.

(** [range(n)]. *)
Definition range (n : Z) : list Z := map Z.of_nat (seq 0 (Z.to_nat n)).

(** [l[i]], negative indices counting from the end. *)
Definition getitem {A : Type} (l : list A) (i : Z) : result A :=
  let n := Z.of_nat (length l) in
  let j := if (i <? 0)%Z then (i + n)%Z else i in
  if (j <? 0)%Z then Raise IndexError
  else match nth_error l (Z.to_nat j) with
       | Some a => Ok a
       | None => Raise IndexError
       end.

(** A [for] loop that appends one computed element per item; an exception
    in the body leaves the loop. *)
Fixpoint for_append {A B : Type} (body : A -> result B) (l : list A)
  : result (list B) :=
  match l with
  | [] => Ok []
  | a :: l' =>
      bind (body a) (fun b =>
      bind (for_append body l') (fun bs => Ok (b :: bs)))
  end.

(** [sorted(l, key=key)]: a stable sort that compares keys with [<] only.
    The element being placed goes after the elements whose key is strictly
    smaller and before the others, so equal keys keep their input order. *)
Fixpoint insert_by {A : Type} (key : A -> R) (x : A) (l : list A) : list A :=
  match l with
  | [] => [x]
  | y :: l' => if ltb (key y) (key x) then y :: insert_by key x l'
               else x :: y :: l'
  end.

Fixpoint sorted {A : Type} (key : A -> R) (l : list A) : list A :=
  match l with
  | [] => []
  | x :: l' => insert_by key x (sorted key l')
  end.

(** [bisect.bisect_right(a, x)]: the loop of the standard library,
    [while lo < hi: mid = (lo + hi) // 2; if x < a[mid]: hi = mid
     else: lo = mid + 1], returning [lo]. *)
Equations? bisect_loop (a : list R) (x : R) (lo hi : nat) : nat
  by wf (hi - lo)%nat lt :=
  bisect_loop a x lo hi with lt_dec lo hi => {
    | right _ := lo
    | left _ with ltb x (nth ((lo + hi) / 2) a 0) => {
        | true := bisect_loop a x lo ((lo + hi) / 2)
        | false := bisect_loop a x (S ((lo + hi) / 2)) hi } }.
Proof.
  all: change (fst (Nat.divmod (lo + hi) 1 0 1)) with ((lo + hi) / 2)%nat;
    pose proof (Nat.div_mod_eq (lo + hi) 2) as E;
    pose proof (Nat.mod_upper_bound (lo + hi) 2) as U; lia.
Qed.

Definition bisect_right (a : list R) (x : R) : nat :=
  bisect_loop a x 0 (length a).

End Py.

Import Py.

Notation "x <- c ;; k" := (bind c (fun x => k))
  (at level 61, c at next level, right associativity).

(* ================================================================= *)
(** * Data model *)

Definition vec3 : Type := R * R * R.
Definition quat : Type := R * R * R * R.

(** Modelled from the spec: the class [AnimationKeyframe] of
    [meshcat_html_importer.scene.scene_graph] is imported by the converter
    but is not among the sources.  The spec gives it a [time] and three
    optional channels: position (x, y, z), rotation (a quaternion in the
    order x, y, z, w) and scale (x, y, z). *)
Record AnimationKeyframe : Type := mkAnimationKeyframe {
  time : R;
  position : option vec3;
  rotation : option quat;
  scale : option vec3
}.

(** Modelled from the spec: the class [SceneNode] of the same module; the
    converter reads its list of keyframes only. *)
Record SceneNode : Type := mkSceneNode {
  keyframes : list AnimationKeyframe
}.

(** The dataclass [BlenderKeyframe]: an integer frame and the channels, the
    rotation in the order (w, x, y, z). *)
Module BlenderKeyframe.
Record t : Type := mk {
  frame : Z;
  location : option vec3;
  rotation_quaternion : option quat;
  scale : option vec3
}.
End BlenderKeyframe.

(* ================================================================= *)
(** * The converter *)

Definition convert_quaternion_to_blender (q : quat) : quat :=
  let '(x, y, z, w) := q in (w, x, y, z).

Definition time_to_frame (time_value recording_fps target_fps : R)
    (start_frame : Z) : result Z :=
  time_seconds <- div time_value recording_fps ;;
  Ok (start_frame + round (time_seconds * target_fps))%Z.

Definition _lerp_tuple3 (a b : option vec3) (t : R) : option vec3 :=
  match a, b with
  | None, None => None
  | None, Some _ => b
  | Some _, None => a
  | Some (a0, a1, a2), Some (b0, b1, b2) =>
      Some (a0 + (b0 - a0) * t, a1 + (b1 - a1) * t, a2 + (b2 - a2) * t)
  end.

(** [math.sqrt] is applied to a sum of squares, which is never negative,
    and the four divisions are guarded by [length > 0]: neither can raise. *)
Definition _nlerp_quat (a b : option quat) (t : R) : option quat :=
  match a, b with
  | None, None => None
  | None, Some _ => b
  | Some _, None => a
  | Some (a0, a1, a2, a3), Some (b0, b1, b2, b3) =>
      let dot := a0 * b0 + a1 * b1 + a2 * b2 + a3 * b3 in
      let '(b0, b1, b2, b3) :=
        if ltb dot 0 then (- b0, - b1, - b2, - b3) else (b0, b1, b2, b3) in
      let x := a0 + (b0 - a0) * t in
      let y := a1 + (b1 - a1) * t in
      let z := a2 + (b2 - a2) * t in
      let w := a3 + (b3 - a3) * t in
      let length := sqrt (x * x + y * y + z * z + w * w) in
      if ltb 0 length
      then Some (x / length, y / length, z / length, w / length)
      else Some (x, y, z, w)
  end.

(** The weight of the interpolation branch:
    [t = (target_recording_time - kf_a.time) / dt if dt > 0 else 0.0]. *)
Definition interpolation_weight (kf_a kf_b : AnimationKeyframe)
    (target_recording_time : R) : result R :=
  let dt := time kf_b - time kf_a in
  if ltb 0 dt then div (target_recording_time - time kf_a) dt else Ok 0.

(** The keyframe the interpolation branch appends. *)
Definition interpolate (kf_a kf_b : AnimationKeyframe)
    (target_recording_time : R) (target_frame : Z)
  : result AnimationKeyframe :=
  t <- interpolation_weight kf_a kf_b target_recording_time ;;
  let pos := _lerp_tuple3 (position kf_a) (position kf_b) t in
  let rot := _nlerp_quat (rotation kf_a) (rotation kf_b) t in
  let sc := _lerp_tuple3 (scale kf_a) (scale kf_b) t in
  Ok (mkAnimationKeyframe (IZR target_frame) pos rot sc).

(** The keyframe the two clamping branches append. *)
Definition clamp_to (kf : AnimationKeyframe) (target_frame : Z)
  : AnimationKeyframe :=
  mkAnimationKeyframe (IZR target_frame) (position kf) (rotation kf) (scale kf).

(** The source-time coordinate of a target frame. *)
Definition target_recording_time_of (recording_fps target_fps : R)
    (target_frame : Z) : result R :=
  let min_time := 0 in
  target_time_seconds <- div (IZR target_frame) target_fps ;;
  Ok (min_time + target_time_seconds * recording_fps).

(** The body of the loop [for target_frame in range(target_frame_count)]. *)
Definition resample_frame (sorted_kfs : list AnimationKeyframe)
    (all_times : list R) (recording_fps target_fps : R) (target_frame : Z)
  : result AnimationKeyframe :=
  target_recording_time <-
    target_recording_time_of recording_fps target_fps target_frame ;;
  let idx := bisect_right all_times target_recording_time in
  if (idx =? 0)%nat then
    kf <- getitem sorted_kfs 0 ;;
    Ok (clamp_to kf target_frame)
  else if (length sorted_kfs <=? idx)%nat then
    kf <- getitem sorted_kfs (-1) ;;
    Ok (clamp_to kf target_frame)
  else
    kf_a <- getitem sorted_kfs (Z.of_nat idx - 1) ;;
    kf_b <- getitem sorted_kfs (Z.of_nat idx) ;;
    interpolate kf_a kf_b target_recording_time target_frame.

Definition downsample_keyframes (keyframes : list AnimationKeyframe)
    (recording_fps target_fps : R) : result (list AnimationKeyframe) :=
  if (length keyframes =? 0)%nat || leb recording_fps target_fps
  then Ok keyframes
  else
    let sorted_kfs := sorted time keyframes in
    if (length sorted_kfs <? 2)%nat then Ok sorted_kfs
    else
      last_kf <- getitem sorted_kfs (-1) ;;
      let max_time := time last_kf in
      duration_seconds <- div max_time recording_fps ;;
      let target_frame_count := (int (duration_seconds * target_fps) + 1)%Z in
      let all_times := map time sorted_kfs in
      for_append
        (resample_frame sorted_kfs all_times recording_fps target_fps)
        (range target_frame_count).

Definition convert_keyframes_to_blender (keyframes : list AnimationKeyframe)
    (recording_fps target_fps : R) (start_frame : Z) (downsample : bool)
  : result (list BlenderKeyframe.t) :=
  if (length keyframes =? 0)%nat then Ok []
  else
    processed_kfs <-
      (if downsample
       then downsample_keyframes keyframes recording_fps target_fps
       else Ok keyframes) ;;
    for_append
      (fun kf =>
         frame <-
           (if downsample then Ok (start_frame + round (time kf))%Z
            else time_to_frame (time kf) recording_fps target_fps start_frame) ;;
         let rotation :=
           match rotation kf with
           | Some q => Some (convert_quaternion_to_blender q)
           | None => None
           end in
         Ok (BlenderKeyframe.mk frame (position kf) rotation (scale kf)))
      processed_kfs.

(** The two nested loops that track [max_time], starting from [0]. *)
Definition max_time_of (nodes : list SceneNode) : R :=
  fold_left
    (fun max_time node =>
       fold_left (fun max_time kf => max max_time (time kf))
                 (keyframes node) max_time)
    nodes 0.

Definition get_animation_range (nodes : list SceneNode)
    (recording_fps target_fps : R) (start_frame : Z) : result (Z * Z) :=
  let min_frame := start_frame in
  let max_time := max_time_of nodes in
  duration_seconds <- div max_time recording_fps ;;
  let max_frame := (start_frame + round (duration_seconds * target_fps))%Z in
  Ok (min_frame, max_frame).

(* ================================================================= *)
(** * Notions the specification uses *)

(** Rounding to the nearest integer with ties away from zero, the mode the
    specification recommends. *)
Definition round_half_away_from_zero (x : R) : Z :=
  if leb 0 x then Zfloor (x + 1 / 2) else Zceil (x - 1 / 2).

(** The magnitude of a quaternion. *)
Definition quat_norm (q : quat) : R :=
  let '(x, y, z, w) := q in sqrt (x * x + y * y + z * z + w * w).

Definition quat_neg (q : quat) : quat :=
  let '(x, y, z, w) := q in (- x, - y, - z, - w).

(** [m] is the largest keyframe time found in [nodes]. *)
Definition is_max_keyframe_time (nodes : list SceneNode) (m : R) : Prop :=
  (exists node kf,
      In node nodes /\ In kf (keyframes node) /\ time kf = m) /\
  (forall node kf,
      In node nodes -> In kf (keyframes node) -> time kf <= m).

(** The Blender keyframe built from a keyframe and its frame number, as
    the loop of [convert_keyframes_to_blender] builds it. *)
Definition to_blender (frame : Z) (kf : AnimationKeyframe)
  : BlenderKeyframe.t :=
  BlenderKeyframe.mk frame (position kf)
    (match rotation kf with
     | Some q => Some (convert_quaternion_to_blender q)
     | None => None
     end)
    (scale kf).


(** A channel that no keyframe of a list has, and one that all have. *)
Definition absent_everywhere {T : Type} (channel : AnimationKeyframe -> option T)
    (kfs : list AnimationKeyframe) : Prop :=
  forall kf, In kf kfs -> channel kf = None.

Definition present_everywhere {T : Type}
    (channel : AnimationKeyframe -> option T)
    (kfs : list AnimationKeyframe) : Prop :=
  forall kf, In kf kfs -> channel kf <> None.

(** Every rotation present in a list of keyframes is a unit quaternion. *)
Definition unit_rotations (kfs : list AnimationKeyframe) : Prop :=
  forall kf q, In kf kfs -> rotation kf = Some q -> quat_norm q = 1.

(** How a channel missing on one side or on both goes through the
    interpolation: the value of the only side that has one, unchanged, and
    nothing when neither side has one. *)
Definition propagates_missing {T : Type} (a b out : option T) : Prop :=
  (forall v, a = Some v -> b = None -> out = Some v) /\
  (forall v, a = None -> b = Some v -> out = Some v) /\
  (a = None -> b = None -> out = None).


(* ================================================================= *)
(** * The converter in binary64

    The same code once more, now on the 64-bit floating-point numbers the
    Python interpreter computes with: every [+], [-], [*], [/] and [sqrt]
    rounds as IEEE 754 does, NaN and the infinities exist, [int()] and
    [round()] raise [OverflowError] on an infinity and [ValueError] on NaN.
    This embedding decides what depends on rounding: the number of frames,
    the frame of a sample, the weight of an interpolation. *)

Module F64.

Abbreviation float := PrimFloat.float.
Abbreviation zero := PrimFloat.zero.

(** [float(n)] of an integer: the nearest float, ties to even. *)
Definition of_int (z : Z) : float :=
  FloatOps.SF2Prim
    (SpecFloat.binary_normalize FloatOps.prec FloatOps.emax z 0 false).

(** The integer part, the ceiling and the nearest integer (ties to even) of
    the positive number [m * 2 ^ e]. *)
Definition magnitude_trunc (m : positive) (e : Z) : Z :=
  (if 0 <=? e then Z.pos m * 2 ^ e else Z.pos m / 2 ^ (- e))%Z.


Definition magnitude_round (m : positive) (e : Z) : Z :=
  (if 0 <=? e then Z.pos m * 2 ^ e
   else
     let d := 2 ^ (- e) in
     let q := Z.pos m / d in
     match 2 * (Z.pos m mod d) ?= d with
     | Lt => q
     | Gt => q + 1
     | Eq => if Z.even q then q else q + 1
     end)%Z.

(** From a float to an integer: zero gives 0, an infinity raises
    [OverflowError], NaN raises [ValueError]. *)
Definition to_integer (on_finite : bool -> positive -> Z -> Z) (x : float)
  : result Z :=
  match FloatOps.Prim2SF x with
  | SpecFloat.S754_zero _ => Ok 0%Z
  | SpecFloat.S754_infinity _ => Raise OverflowError
  | SpecFloat.S754_nan => Raise ValueError
  | SpecFloat.S754_finite s m e => Ok (on_finite s m e)
  end.

(** [int(x)]: truncation toward zero. *)
Definition int : float -> result Z :=
  to_integer (fun s m e =>
                if s then (- magnitude_trunc m e)%Z else magnitude_trunc m e).

(** [round(x)]: the nearest integer, ties to even. *)
Definition round : float -> result Z :=
  to_integer (fun s m e =>
                if s then (- magnitude_round m e)%Z else magnitude_round m e).


(** [a / b]: a zero divisor, of either sign, raises. *)
Definition div (a b : float) : result float :=
  if PrimFloat.eqb b zero then Raise ZeroDivisionError
  else Ok (PrimFloat.div a b).

(** [max(a, b)]: the second argument only when it is greater. *)
Definition max (a b : float) : float := if PrimFloat.ltb a b then b else a.

(** [sorted(l, key=key)], comparing the keys with [<]. *)
Fixpoint insert_by {A : Type} (key : A -> float) (x : A) (l : list A)
  : list A :=
  match l with
  | [] => [x]
  | y :: l' => if PrimFloat.ltb (key y) (key x) then y :: insert_by key x l'
               else x :: y :: l'
  end.

Fixpoint sorted {A : Type} (key : A -> float) (l : list A) : list A :=
  match l with
  | [] => []
  | x :: l' => insert_by key x (sorted key l')
  end.

(** [bisect.bisect_right(a, x)]. *)
Equations? bisect_loop (a : list float) (x : float) (lo hi : nat) : nat
  by wf (hi - lo)%nat lt :=
  bisect_loop a x lo hi with lt_dec lo hi => {
    | right _ := lo
    | left _ with PrimFloat.ltb x (nth ((lo + hi) / 2) a zero) => {
        | true := bisect_loop a x lo ((lo + hi) / 2)
        | false := bisect_loop a x (S ((lo + hi) / 2)) hi } }.
Proof.
  all: change (fst (Nat.divmod (lo + hi) 1 0 1)) with ((lo + hi) / 2)%nat;
    pose proof (Nat.div_mod_eq (lo + hi) 2) as E;
    pose proof (Nat.mod_upper_bound (lo + hi) 2) as U; lia.
Qed.

Definition bisect_right (a : list float) (x : float) : nat :=
  bisect_loop a x 0 (length a).

Definition vec3 : Type := float * float * float.
Definition quat : Type := float * float * float * float.

(** Modelled from the spec: the class [AnimationKeyframe] of
    [meshcat_html_importer.scene.scene_graph], with float fields. *)
Record AnimationKeyframe : Type := mkAnimationKeyframe {
  time : float;
  position : option vec3;
  rotation : option quat;
  scale : option vec3
}.

(** Modelled from the spec: the class [SceneNode] of the same module. *)
Record SceneNode : Type := mkSceneNode {
  keyframes : list AnimationKeyframe
}.

Record BlenderKeyframe : Type := mkBlenderKeyframe {
  frame : Z;
  location : option vec3;
  rotation_quaternion : option quat;
  blender_scale : option vec3
}.

Definition convert_quaternion_to_blender (q : quat) : quat :=
  let '(x, y, z, w) := q in (w, x, y, z).

Definition time_to_frame (time_value recording_fps target_fps : float)
    (start_frame : Z) : result Z :=
  time_seconds <- div time_value recording_fps ;;
  rounded <- round (PrimFloat.mul time_seconds target_fps) ;;
  Ok (start_frame + rounded)%Z.

Definition lerp (a b t : float) : float :=
  PrimFloat.add a (PrimFloat.mul (PrimFloat.sub b a) t).

Definition _lerp_tuple3 (a b : option vec3) (t : float) : option vec3 :=
  match a, b with
  | None, None => None
  | None, Some _ => b
  | Some _, None => a
  | Some (a0, a1, a2), Some (b0, b1, b2) =>
      Some (lerp a0 b0 t, lerp a1 b1 t, lerp a2 b2 t)
  end.

(** [math.sqrt] gets a sum of squares, which is never negative, and the
    divisions are guarded by [length > 0]: neither raises. *)
Definition _nlerp_quat (a b : option quat) (t : float) : option quat :=
  match a, b with
  | None, None => None
  | None, Some _ => b
  | Some _, None => a
  | Some (a0, a1, a2, a3), Some (b0, b1, b2, b3) =>
      let dot :=
        PrimFloat.add
          (PrimFloat.add
             (PrimFloat.add (PrimFloat.mul a0 b0) (PrimFloat.mul a1 b1))
             (PrimFloat.mul a2 b2))
          (PrimFloat.mul a3 b3) in
      let '(b0, b1, b2, b3) :=
        if PrimFloat.ltb dot zero
        then (PrimFloat.opp b0, PrimFloat.opp b1,
              PrimFloat.opp b2, PrimFloat.opp b3)
        else (b0, b1, b2, b3) in
      let x := lerp a0 b0 t in
      let y := lerp a1 b1 t in
      let z := lerp a2 b2 t in
      let w := lerp a3 b3 t in
      let length :=
        PrimFloat.sqrt
          (PrimFloat.add
             (PrimFloat.add
                (PrimFloat.add (PrimFloat.mul x x) (PrimFloat.mul y y))
                (PrimFloat.mul z z))
             (PrimFloat.mul w w)) in
      if PrimFloat.ltb zero length
      then Some (PrimFloat.div x length, PrimFloat.div y length,
                 PrimFloat.div z length, PrimFloat.div w length)
      else Some (x, y, z, w)
  end.

(** [t = (target_recording_time - kf_a.time) / dt if dt > 0 else 0.0]; the
    divisor is positive where the division is made. *)
Definition interpolation_weight (kf_a kf_b : AnimationKeyframe)
    (target_recording_time : float) : float :=
  let dt := PrimFloat.sub (time kf_b) (time kf_a) in
  if PrimFloat.ltb zero dt
  then PrimFloat.div (PrimFloat.sub target_recording_time (time kf_a)) dt
  else zero.

Definition interpolate (kf_a kf_b : AnimationKeyframe)
    (target_recording_time : float) (target_frame : Z) : AnimationKeyframe :=
  let t := interpolation_weight kf_a kf_b target_recording_time in
  mkAnimationKeyframe (of_int target_frame)
    (_lerp_tuple3 (position kf_a) (position kf_b) t)
    (_nlerp_quat (rotation kf_a) (rotation kf_b) t)
    (_lerp_tuple3 (scale kf_a) (scale kf_b) t).

Definition clamp_to (kf : AnimationKeyframe) (target_frame : Z)
  : AnimationKeyframe :=
  mkAnimationKeyframe (of_int target_frame)
    (position kf) (rotation kf) (scale kf).

Definition target_recording_time_of (recording_fps target_fps : float)
    (target_frame : Z) : result float :=
  let min_time := zero in
  target_time_seconds <- div (of_int target_frame) target_fps ;;
  Ok (PrimFloat.add min_time (PrimFloat.mul target_time_seconds recording_fps)).

(** The body of the loop over the target frames. *)
Definition resample_frame (sorted_kfs : list AnimationKeyframe)
    (all_times : list float) (recording_fps target_fps : float)
    (target_frame : Z) : result AnimationKeyframe :=
  target_recording_time <-
    target_recording_time_of recording_fps target_fps target_frame ;;
  let idx := bisect_right all_times target_recording_time in
  if (idx =? 0)%nat then
    kf <- getitem sorted_kfs 0 ;;
    Ok (clamp_to kf target_frame)
  else if (length sorted_kfs <=? idx)%nat then
    kf <- getitem sorted_kfs (-1) ;;
    Ok (clamp_to kf target_frame)
  else
    kf_a <- getitem sorted_kfs (Z.of_nat idx - 1) ;;
    kf_b <- getitem sorted_kfs (Z.of_nat idx) ;;
    Ok (interpolate kf_a kf_b target_recording_time target_frame).

(** The computed product [(max_time / recording_fps) * target_fps]. *)
Definition frame_product (max_time recording_fps target_fps : float)
  : result float :=
  duration_seconds <- div max_time recording_fps ;;
  Ok (PrimFloat.mul duration_seconds target_fps).

Definition downsample_keyframes (keyframes : list AnimationKeyframe)
    (recording_fps target_fps : float) : result (list AnimationKeyframe) :=
  if (length keyframes =? 0)%nat || PrimFloat.leb recording_fps target_fps
  then Ok keyframes
  else
    let sorted_kfs := sorted time keyframes in
    if (length sorted_kfs <? 2)%nat then Ok sorted_kfs
    else
      last_kf <- getitem sorted_kfs (-1) ;;
      let max_time := time last_kf in
      product <- frame_product max_time recording_fps target_fps ;;
      truncated <- int product ;;
      let target_frame_count := (truncated + 1)%Z in
      let all_times := map time sorted_kfs in
      for_append
        (resample_frame sorted_kfs all_times recording_fps target_fps)
        (range target_frame_count).

Definition convert_keyframes_to_blender (keyframes : list AnimationKeyframe)
    (recording_fps target_fps : float) (start_frame : Z) (downsample : bool)
  : result (list BlenderKeyframe) :=
  if (length keyframes =? 0)%nat then Ok []
  else
    processed_kfs <-
      (if downsample
       then downsample_keyframes keyframes recording_fps target_fps
       else Ok keyframes) ;;
    for_append
      (fun kf =>
         frame <-
           (if downsample
            then (rounded <- round (time kf) ;; Ok (start_frame + rounded)%Z)
            else time_to_frame (time kf) recording_fps target_fps start_frame) ;;
         let rotation :=
           match rotation kf with
           | Some q => Some (convert_quaternion_to_blender q)
           | None => None
           end in
         Ok (mkBlenderKeyframe frame (position kf) rotation (scale kf)))
      processed_kfs.

Definition max_time_of (nodes : list SceneNode) : float :=
  fold_left
    (fun max_time node =>
       fold_left (fun max_time kf => max max_time (time kf))
                 (keyframes node) max_time)
    nodes zero.

Definition get_animation_range (nodes : list SceneNode)
    (recording_fps target_fps : float) (start_frame : Z) : result (Z * Z) :=
  let min_frame := start_frame in
  let max_time := max_time_of nodes in
  duration_seconds <- div max_time recording_fps ;;
  rounded <- round (PrimFloat.mul duration_seconds target_fps) ;;
  let max_frame := (start_frame + rounded)%Z in
  Ok (min_frame, max_frame).

(** A keyframe with a time only. *)
Definition at_time (t : float) : AnimationKeyframe :=
  mkAnimationKeyframe t None None None.

End F64.

(* ================================================================= *)
(** * Facts about the Python operations *)

Section PyFacts.

Lemma ltb_reflect (a b : R) : reflect (a < b) (ltb a b).
Proof. unfold ltb. destruct (Rlt_dec a b); constructor; assumption. Qed.

Lemma leb_reflect (a b : R) : reflect (a <= b) (leb a b).
Proof. unfold leb. destruct (Rle_dec a b); constructor; assumption. Qed.

Lemma eqb_reflect (a b : R) : reflect (a = b) (eqb a b).
Proof. unfold eqb. destruct (Req_dec_T a b); constructor; assumption. Qed.

Lemma ltb_true (a b : R) : a < b -> ltb a b = true.
Proof. intros H. destruct (ltb_reflect a b); [reflexivity | contradiction]. Qed.

Lemma ltb_false (a b : R) : b <= a -> ltb a b = false.
Proof. intros H. destruct (ltb_reflect a b); [lra | reflexivity]. Qed.

Lemma leb_true (a b : R) : a <= b -> leb a b = true.
Proof. intros H. destruct (leb_reflect a b); [reflexivity | contradiction]. Qed.

Lemma leb_false (a b : R) : b < a -> leb a b = false.
Proof. intros H. destruct (leb_reflect a b); [lra | reflexivity]. Qed.

Lemma eqb_true (a b : R) : a = b -> eqb a b = true.
Proof. intros H. destruct (eqb_reflect a b); [reflexivity | contradiction]. Qed.

Lemma eqb_false (a b : R) : a <> b -> eqb a b = false.
Proof. intros H. destruct (eqb_reflect a b); [contradiction | reflexivity]. Qed.

Lemma div_ok (a b : R) : b <> 0 -> div a b = Ok (a / b).
Proof. intros H. unfold div. rewrite eqb_false by assumption. reflexivity. Qed.

Lemma div_zero (a : R) : div a 0 = Raise ZeroDivisionError.
Proof. unfold div. rewrite eqb_true by reflexivity. reflexivity. Qed.

(** [int] is the floor on the non-negative numbers and the ceiling on the
    others. *)
Lemma int_nonneg (x : R) : 0 <= x -> int x = Zfloor x.
Proof. intros H. unfold int. rewrite leb_true by assumption. reflexivity. Qed.

Lemma int_neg (x : R) : x < 0 -> int x = Zceil x.
Proof. intros H. unfold int. rewrite leb_false by assumption. reflexivity. Qed.

Lemma int_nonneg_eq (x : R) (z : Z) :
  0 <= x -> IZR z <= x < IZR z + 1 -> int x = z.
Proof. intros H0 H. rewrite int_nonneg by assumption. apply Zfloor_eq, H. Qed.

Lemma int_neg_eq (x : R) (z : Z) :
  x < 0 -> IZR z - 1 < x <= IZR z -> int x = z.
Proof. intros H0 H. rewrite int_neg by assumption. apply Zceil_eq, H. Qed.

Lemma int_nonneg_ge0 (x : R) : 0 <= x -> (0 <= int x)%Z.
Proof.
  intros H. rewrite int_nonneg by assumption.
  apply (Zfloor_lub 0). exact H.
Qed.

(** Two integers less than one apart are equal. *)
Lemma IZR_close (m n : Z) : -1 < IZR m - IZR n < 1 -> m = n.
Proof.
  intros [H1 H2].
  assert (n - 1 < m)%Z by (apply lt_IZR; rewrite minus_IZR; lra).
  assert (m < n + 1)%Z by (apply lt_IZR; rewrite plus_IZR; lra).
  lia.
Qed.

(** [round] returns a nearest integer, and the even one at a tie. *)
Lemma round_cases (x : R) :
  let n := Zfloor x in
  (x - IZR n < 1 / 2 /\ round x = n) \/
  (1 / 2 < x - IZR n /\ round x = (n + 1)%Z) \/
  (x - IZR n = 1 / 2 /\ round x = if Z.even n then n else (n + 1)%Z).
Proof.
  intros n. unfold round. fold n.
  destruct (ltb_reflect (x - IZR n) (1 / 2)) as [H | H]; [left; auto |].
  destruct (ltb_reflect (1 / 2) (x - IZR n)) as [H' | H'];
    [right; left; auto | right; right; split; [lra | reflexivity]].
Qed.


Lemma round_tie_even (x : R) :
  Rabs (x - IZR (round x)) = 1 / 2 -> Z.even (round x) = true.
Proof.
  pose proof (Zfloor_bound x) as B.
  destruct (round_cases x) as [[H E] | [[H E] | [H E]]]; rewrite E.
  - intros A. rewrite Rabs_pos_eq in A by lra. lra.
  - rewrite plus_IZR. intros A.
    rewrite Rabs_left in A by lra. lra.
  - intros _. destruct (Z.even (Zfloor x)) eqn:Ev; [exact Ev |].
    rewrite Z.even_add, Ev. reflexivity.
Qed.

Lemma Rabs_le_bounds (a b : R) : Rabs a <= b -> - b <= a <= b.
Proof. unfold Rabs. destruct (Rcase_abs a); lra. Qed.

(** These two properties determine the result. *)
Lemma round_unique (x : R) (m : Z) :
  Rabs (x - IZR m) <= 1 / 2 ->
  (Rabs (x - IZR m) = 1 / 2 -> Z.even m = true) ->
  round x = m.
Proof.
  intros Hn He.
  pose proof (Zfloor_bound x) as B.
  apply Rabs_le_bounds in Hn.
  destruct (round_cases x) as [[H E] | [[H E] | [H E]]]; rewrite E.
  - symmetry. apply IZR_close.
    split; [| lra].
    destruct (Z_le_gt_dec (Zfloor x) m) as [L | L].
    + apply IZR_le in L. lra.
    + assert (m <= Zfloor x - 1)%Z as L' by lia.
      apply IZR_le in L'. rewrite minus_IZR in L'. lra.
  - symmetry. apply IZR_close. rewrite plus_IZR.
    split; [| lra].
    destruct (Z_le_gt_dec m (Zfloor x)) as [L | L]; [| apply Z.gt_lt in L].
    + apply IZR_le in L. lra.
    + assert (Zfloor x + 1 <= m)%Z as L' by lia.
      apply IZR_le in L'. rewrite plus_IZR in L'. lra.
  - assert (Hm : m = Zfloor x \/ m = (Zfloor x + 1)%Z).
    { destruct (Z_le_gt_dec m (Zfloor x)) as [L | L].
      - left. apply IZR_close. apply IZR_le in L. lra.
      - right. apply IZR_close. rewrite plus_IZR.
        assert (Zfloor x + 1 <= m)%Z as L' by lia.
        apply IZR_le in L'. rewrite plus_IZR in L'. lra. }
    destruct Hm as [-> | ->].
    + rewrite He; [reflexivity |].
      rewrite Rabs_pos_eq by lra. lra.
    + rewrite plus_IZR in He.
      assert (Ev : Z.even (Zfloor x + 1) = true)
        by (apply He; rewrite Rabs_left by lra; lra).
      rewrite Z.even_add in Ev.
      destruct (Z.even (Zfloor x)); [discriminate | reflexivity].
Qed.

Lemma round_IZR (z : Z) : round (IZR z) = z.
Proof.
  apply round_unique.
  - rewrite Rminus_diag. rewrite Rabs_R0. lra.
  - rewrite Rminus_diag. rewrite Rabs_R0. lra.
Qed.

End PyFacts.

(* ================================================================= *)
(** * Lists: indexing, the loop, sorting and bisection *)

Section ListFacts.

Context {A B : Type}.

Lemma getitem_nth (l : list A) (i : nat) (d : A) :
  (i < length l)%nat -> getitem l (Z.of_nat i) = Ok (nth i l d).
Proof.
  intros H. unfold getitem.
  destruct (Z.ltb_spec (Z.of_nat i) 0) as [L | L]; [lia |].
  destruct (Z.ltb_spec (Z.of_nat i) 0) as [L' | L']; [lia |].
  rewrite Nat2Z.id.
  destruct (nth_error l i) as [a |] eqn:E.
  - rewrite (nth_error_nth l i d E). reflexivity.
  - apply nth_error_None in E. lia.
Qed.

Lemma getitem_last (l : list A) (d : A) :
  l <> [] -> getitem l (-1) = Ok (last l d).
Proof.
  intros H. unfold getitem.
  assert (0 < length l)%nat as Hl by (destruct l; [contradiction | simpl; lia]).
  change (-1 <? 0)%Z with true. cbv iota.
  destruct (Z.ltb_spec (-1 + Z.of_nat (length l)) 0) as [L | L]; [lia |].
  replace (Z.to_nat (-1 + Z.of_nat (length l))) with (length l - 1)%nat by lia.
  destruct (nth_error l (length l - 1)) as [a |] eqn:E.
  - rewrite <- (nth_error_nth l _ d E).
    destruct (exists_last H) as [l' [a' ->]].
    rewrite last_last, length_app, app_nth2 by (simpl; lia).
    simpl. replace (length l' + 1 - 1 - length l')%nat with 0%nat by lia.
    reflexivity.
  - apply nth_error_None in E. lia.
Qed.


(** The loop succeeds when its body does, and then runs the body once per
    item, in order. *)
Lemma for_append_Forall2 (body : A -> result B) (l : list A) (bs : list B) :
  for_append body l = Ok bs <-> Forall2 (fun a b => body a = Ok b) l bs.
Proof.
  revert bs. induction l as [| a l IH]; intros bs; simpl.
  - split.
    + intros E. injection E as <-. constructor.
    + intros F. inversion F. reflexivity.
  - split.
    + destruct (body a) as [b | e] eqn:Ea; simpl; [| discriminate].
      destruct (for_append body l) as [bs' | e] eqn:El; simpl; [| discriminate].
      intros E. injection E as <-. constructor; [exact Ea |].
      apply IH. reflexivity.
    + intros F. inversion F as [| a' b l' bs' Ea Fl]; subst.
      rewrite Ea. simpl.
      apply IH in Fl. rewrite Fl. reflexivity.
Qed.


Lemma for_append_length (body : A -> result B) (l : list A) (bs : list B) :
  for_append body l = Ok bs -> length bs = length l.
Proof.
  intros E. apply for_append_Forall2 in E.
  symmetry. exact (Forall2_length E).
Qed.

Lemma for_append_nth (body : A -> result B) (l : list A) (bs : list B)
    (i : nat) (da : A) (db : B) :
  for_append body l = Ok bs -> (i < length l)%nat ->
  body (nth i l da) = Ok (nth i bs db).
Proof.
  intros E. apply for_append_Forall2 in E.
  revert i. induction E as [| a b l bs Eab F IH]; intros i Hi; simpl in Hi.
  - lia.
  - destruct i as [| i]; simpl; [exact Eab | apply IH; lia].
Qed.

Lemma last_map_nonempty (f : A -> B) (l : list A) (d : A) (d' : B) :
  l <> [] -> last (map f l) d' = f (last l d).
Proof.
  intros H. destruct (exists_last H) as [l' [a' ->]].
  rewrite map_app. simpl map. rewrite !last_last. reflexivity.
Qed.

Lemma for_append_raise (body : A -> result B) (a : A) (l : list A)
    (e : PyError) :
  body a = Raise e -> for_append body (a :: l) = Raise e.
Proof. intros E. simpl. rewrite E. reflexivity. Qed.

End ListFacts.

Lemma range_length (n : Z) : length (range n) = Z.to_nat n.
Proof. unfold range. rewrite length_map, length_seq. reflexivity. Qed.

Lemma range_nth (n : Z) (i : nat) (d : Z) :
  (i < Z.to_nat n)%nat -> nth i (range n) d = Z.of_nat i.
Proof.
  intros H. unfold range.
  rewrite (nth_indep _ d (Z.of_nat 0)) by (rewrite length_map, length_seq; exact H).
  rewrite map_nth, seq_nth by exact H. reflexivity.
Qed.

Lemma range_In (n z : Z) : In z (range n) -> (0 <= z < n)%Z.
Proof.
  unfold range. intros H. apply in_map_iff in H as [i [<- Hi]].
  apply in_seq in Hi. lia.
Qed.


Section SortFacts.

Context {A : Type} (key : A -> R).

Lemma insert_by_length (x : A) (l : list A) :
  length (insert_by key x l) = S (length l).
Proof.
  induction l as [| y l IH]; simpl; [reflexivity |].
  destruct (ltb (key y) (key x)); simpl; [rewrite IH |]; reflexivity.
Qed.

Lemma sorted_length (l : list A) : length (sorted key l) = length l.
Proof.
  induction l as [| x l IH]; simpl; [reflexivity |].
  rewrite insert_by_length, IH. reflexivity.
Qed.

Lemma insert_by_In (x y : A) (l : list A) :
  In y (insert_by key x l) <-> y = x \/ In y l.
Proof.
  induction l as [| z l IH]; simpl.
  - intuition auto.
  - destruct (ltb (key z) (key x)); simpl; [rewrite IH |]; intuition auto.
Qed.

Lemma sorted_In (y : A) (l : list A) : In y (sorted key l) <-> In y l.
Proof.
  induction l as [| x l IH]; simpl; [reflexivity |].
  rewrite insert_by_In, IH. intuition auto.
Qed.

Lemma insert_by_Forall (P : R -> Prop) (x : A) (l : list A) :
  P (key x) -> Forall P (map key l) ->
  Forall P (map key (insert_by key x l)).
Proof.
  intros Hx. induction l as [| y l IH]; simpl; intros F.
  - constructor; [exact Hx | constructor].
  - inversion F as [| k ks Hy Fl]; subst.
    destruct (ltb (key y) (key x)); simpl.
    + constructor; [exact Hy | apply IH, Fl].
    + constructor; [exact Hx | exact F].
Qed.

Lemma insert_by_sorted (x : A) (l : list A) :
  StronglySorted Rle (map key l) ->
  StronglySorted Rle (map key (insert_by key x l)).
Proof.
  induction l as [| y l IH]; simpl; intros S.
  - constructor; constructor.
  - inversion S as [| k ks Sl Fl]; subst.
    destruct (ltb_reflect (key y) (key x)) as [L | L]; simpl.
    + constructor; [apply IH, Sl |].
      apply insert_by_Forall; [lra | exact Fl].
    + constructor; [exact S |].
      constructor; [lra |].
      eapply Forall_impl; [| exact Fl]. simpl. intros r Hr. lra.
Qed.

(** [sorted] puts the keys in non-decreasing order. *)
Lemma sorted_sorted (l : list A) : StronglySorted Rle (map key (sorted key l)).
Proof.
  induction l as [| x l IH]; simpl; [constructor |].
  apply insert_by_sorted, IH.
Qed.

End SortFacts.

Lemma strongly_sorted_nth (a : list R) (i j : nat) :
  StronglySorted Rle a -> (i <= j)%nat -> (j < length a)%nat ->
  nth i a 0 <= nth j a 0.
Proof.
  intros S. revert i j. induction S as [| r a S IH F]; intros i j Hij Hj.
  - simpl in Hj. lia.
  - simpl in Hj. destruct i as [| i], j as [| j]; simpl; try lia; try lra.
    + rewrite Forall_forall in F. apply F, nth_In. lia.
    + apply IH; lia.
Qed.

(** What the bisection loop returns on a sorted list: everything before the
    returned index is at most [x], everything from it on exceeds [x]. *)
Lemma bisect_loop_spec (a : list R) (x : R) (lo hi : nat) :
  StronglySorted Rle a ->
  (lo <= hi)%nat -> (hi <= length a)%nat ->
  (forall i, (i < lo)%nat -> nth i a 0 <= x) ->
  (forall i, (hi <= i)%nat -> (i < length a)%nat -> x < nth i a 0) ->
  let r := bisect_loop a x lo hi in
  (lo <= r)%nat /\ (r <= hi)%nat /\
  (forall i, (i < r)%nat -> nth i a 0 <= x) /\
  (forall i, (r <= i)%nat -> (i < length a)%nat -> x < nth i a 0).
Proof.
  intros Hs.
  funelim (bisect_loop a x lo hi); intros Hle Hhi Hlo Hup; cbv zeta.
  - (* the loop is over *)
    assert (lo = hi) by lia. subst hi.
    repeat split; auto.
  - (* x < a[mid]: the upper bound moves down to mid *)
    pose proof (Nat.div_mod_eq (lo + hi) 2) as E.
    pose proof (Nat.mod_upper_bound (lo + hi) 2) as U.
    destruct (ltb_reflect x (nth ((lo + hi) / 2) a 0)) as [L | L];
      [| discriminate].
    destruct H as [H1 [H2 [H3 H4]]]; try assumption; try lia.
    + intros i Hi Hi'.
      apply Rlt_le_trans with (1 := L).
      apply strongly_sorted_nth; [assumption | lia | lia].
    + repeat split; auto; lia.
  - (* a[mid] <= x: the lower bound moves up past mid *)
    pose proof (Nat.div_mod_eq (lo + hi) 2) as E.
    pose proof (Nat.mod_upper_bound (lo + hi) 2) as U.
    destruct (ltb_reflect x (nth ((lo + hi) / 2) a 0)) as [L | L];
      [discriminate |].
    destruct H as [H1 [H2 [H3 H4]]]; try assumption; try lia.
    + intros i Hi.
      apply Rle_trans with (nth ((lo + hi) / 2) a 0); [| lra].
      apply strongly_sorted_nth; [assumption | lia | lia].
    + repeat split; auto; lia.
Qed.

Lemma bisect_right_spec (a : list R) (x : R) :
  StronglySorted Rle a ->
  let r := bisect_right a x in
  (r <= length a)%nat /\
  (forall i, (i < r)%nat -> nth i a 0 <= x) /\
  (forall i, (r <= i)%nat -> (i < length a)%nat -> x < nth i a 0).
Proof.
  intros Hs. unfold bisect_right.
  destruct (bisect_loop_spec a x 0 (length a) Hs) as [_ [H2 [H3 H4]]];
    try lia.
  repeat split; assumption.
Qed.

(* ================================================================= *)
(** * The resampler: guards *)

(** C2.  Pass-through: when the keyframe list is empty, or the target rate
    is at least the recording rate, [downsample_keyframes] returns its input
    list itself, the same keyframes in the same order. *)
Theorem downsample_pass_through (kfs : list AnimationKeyframe)
    (recording_fps target_fps : R) :
  kfs = [] \/ recording_fps <= target_fps ->
  downsample_keyframes kfs recording_fps target_fps = Ok kfs.
Proof.
  intros [-> | H]; unfold downsample_keyframes.
  - reflexivity.
  - rewrite (leb_true _ _ H), orb_true_r. reflexivity.
Qed.

Lemma downsample_pass_through_witness :
  let kf0 := mkAnimationKeyframe 0 (Some (0, 0, 0)) None None in
  let kf1 := mkAnimationKeyframe 1000 (Some (10, 0, 0)) None None in
  30 <= 60 /\ downsample_keyframes [kf1; kf0] 30 60 = Ok [kf1; kf0].
Proof.
  intros kf0 kf1. split; [lra |].
  apply (downsample_pass_through [kf1; kf0] 30 60). right. lra.
Defined.

(* ================================================================= *)
(** * The time-base mapper *)

(** Evaluating [round] and the specification's rounding at given numbers. *)
Lemma round_eq (x : R) (m : Z) :
  - (1 / 2) < x - IZR m < 1 / 2 -> round x = m.
Proof.
  intros H. apply round_unique.
  - apply Rabs_le. lra.
  - intros E. exfalso.
    unfold Rabs in E. destruct (Rcase_abs (x - IZR m)); lra.
Qed.

Lemma round_tie_eq (x : R) (m : Z) :
  Z.even m = true -> Rabs (x - IZR m) = 1 / 2 -> round x = m.
Proof.
  intros Ev E. apply round_unique; [rewrite E; lra | intros _; exact Ev].
Qed.

Lemma round_half_away_nonneg_eq (x : R) (m : Z) :
  0 <= x -> IZR m - 1 / 2 <= x < IZR m + 1 / 2 ->
  round_half_away_from_zero x = m.
Proof.
  intros H0 H. unfold round_half_away_from_zero.
  rewrite leb_true by assumption. apply Zfloor_eq. lra.
Qed.

(** Away from sample zero the rounding is Python's, ties to even: sample 750
    at 1000 samples per second and 30 frames per second is 22.5 frames, and
    the code returns 22 where rounding away from zero would give 23.  (All
    three numbers are exact in binary64 too.) *)
Lemma time_to_frame_not_half_away :
  time_to_frame 750 1000 30 0 = Ok 22%Z /\
  (0 + round_half_away_from_zero (750 / 1000 * 30))%Z = 23%Z /\
  time_to_frame 750 1000 30 0
    <> Ok (0 + round_half_away_from_zero (750 / 1000 * 30))%Z.
Proof.
  assert (E1 : time_to_frame 750 1000 30 0 = Ok 22%Z).
  { unfold time_to_frame. rewrite div_ok by lra. simpl.
    rewrite (round_tie_eq _ 22); [reflexivity | reflexivity |].
    replace (750 / 1000 * 30 - 22) with (1 / 2) by lra.
    apply Rabs_pos_eq. lra. }
  assert (E2 : (0 + round_half_away_from_zero (750 / 1000 * 30))%Z = 23%Z).
  { rewrite (round_half_away_nonneg_eq _ 23); [reflexivity | lra | lra]. }
  split; [exact E1 |]. split; [exact E2 |].
  rewrite E1, E2. discriminate.
Qed.

(* ================================================================= *)
(** * The animation range *)

Lemma max_cases (a b : R) :
  a <= max a b /\ b <= max a b /\ (max a b = a \/ max a b = b).
Proof.
  unfold max. destruct (ltb_reflect a b); repeat split; auto; lra.
Qed.

Lemma max_time_keyframes (kfs : list AnimationKeyframe) (m0 : R) :
  let m := fold_left (fun max_time kf => max max_time (time kf)) kfs m0 in
  m0 <= m /\
  (forall kf, In kf kfs -> time kf <= m) /\
  (m = m0 \/ exists kf, In kf kfs /\ time kf = m).
Proof.
  revert m0. induction kfs as [| kf kfs IH]; intros m0; simpl.
  - repeat split; [lra | contradiction | left; reflexivity].
  - destruct (IH (max m0 (time kf))) as [H1 [H2 H3]].
    destruct (max_cases m0 (time kf)) as [M1 [M2 M3]].
    repeat split.
    + lra.
    + intros kf' [<- | Hin]; [lra | apply H2, Hin].
    + destruct H3 as [E | [kf' [Hin E]]].
      * destruct M3 as [M3 | M3].
        -- left. rewrite E. exact M3.
        -- right. exists kf. split; [left; reflexivity |].
           rewrite E. symmetry. exact M3.
      * right. exists kf'. split; [right; exact Hin | exact E].
Qed.

Lemma max_time_nodes (nodes : list SceneNode) (m0 : R) :
  let m :=
    fold_left
      (fun max_time node =>
         fold_left (fun max_time kf => max max_time (time kf))
                   (keyframes node) max_time)
      nodes m0 in
  m0 <= m /\
  (forall node kf, In node nodes -> In kf (keyframes node) -> time kf <= m) /\
  (m = m0 \/
   exists node kf, In node nodes /\ In kf (keyframes node) /\ time kf = m).
Proof.
  revert m0. induction nodes as [| node nodes IH]; intros m0; simpl.
  - repeat split; [lra | contradiction | left; reflexivity].
  - destruct (max_time_keyframes (keyframes node) m0) as [K1 [K2 K3]].
    destruct (IH (fold_left (fun max_time kf => max max_time (time kf))
                            (keyframes node) m0)) as [H1 [H2 H3]].
    repeat split.
    + lra.
    + intros node' kf [<- | Hin] Hkf.
      * apply Rle_trans with (2 := H1). apply K2, Hkf.
      * apply (H2 node' kf Hin Hkf).
    + destruct H3 as [E | [node' [kf [Hin [Hkf E]]]]].
      * destruct K3 as [K3 | [kf [Hkf K3]]].
        -- left. rewrite E. exact K3.
        -- right. exists node, kf. repeat split; auto. rewrite E. exact K3.
      * right. exists node', kf. repeat split; auto.
Qed.

(** The tracked maximum is the largest of [0] and every keyframe time. *)
Lemma max_time_of_spec (nodes : list SceneNode) :
  0 <= max_time_of nodes /\
  (forall node kf, In node nodes -> In kf (keyframes node) ->
                   time kf <= max_time_of nodes) /\
  (max_time_of nodes = 0 \/
   exists node kf, In node nodes /\ In kf (keyframes node) /\
                   time kf = max_time_of nodes).
Proof. exact (max_time_nodes nodes 0). Qed.

Lemma max_time_of_nonneg_max (nodes : list SceneNode) (m : R) :
  is_max_keyframe_time nodes m -> 0 <= m -> max_time_of nodes = m.
Proof.
  intros [[node [kf [Hn [Hk E]]]] Hall] H0.
  destruct (max_time_of_spec nodes) as [S1 [S2 S3]].
  apply Rle_antisym.
  - destruct S3 as [-> | [node' [kf' [Hn' [Hk' <-]]]]]; [exact H0 |].
    apply (Hall node' kf' Hn' Hk').
  - rewrite <- E. apply (S2 node kf Hn Hk).
Qed.

(** The scenario of the specification: keyframes that max out at time 2000,
    recorded at 1000 and played at 30 frames per second from frame 0, give
    the range (0, 60). *)
Lemma animation_range_scenario (nodes : list SceneNode) :
  is_max_keyframe_time nodes 2000 ->
  get_animation_range nodes 1000 30 0 = Ok (0, 60)%Z.
Proof.
  intros Hm.
  unfold get_animation_range.
  rewrite (max_time_of_nonneg_max nodes 2000 Hm) by lra.
  rewrite div_ok by lra. simpl.
  replace (2000 / 1000 * 30) with (IZR 60) by lra.
  rewrite round_IZR. reflexivity.
Qed.

(* ================================================================= *)
(** * The resampler: a zero recording rate *)

(** C1, counterexample.  With a recording rate of zero and the usual target
    rate of 30 the first guard applies ([30 >= 0]): the two keyframes come
    back unchanged and nothing is raised. *)
Lemma downsample_zero_rate_passes_through :
  let kfs := [mkAnimationKeyframe 0 (Some (0, 0, 0)) None None;
              mkAnimationKeyframe 1000 (Some (10, 0, 0)) None None] in
  kfs <> [] /\
  downsample_keyframes kfs 0 30 = Ok kfs /\
  downsample_keyframes kfs 0 30 <> Raise ZeroDivisionError.
Proof.
  intros kfs.
  assert (E : downsample_keyframes kfs 0 30 = Ok kfs).
  { unfold downsample_keyframes. rewrite leb_true by lra. reflexivity. }
  split; [discriminate |]. split; [exact E |].
  rewrite E. discriminate.
Qed.

(** Past the guards, the function is the loop over the target frames. *)
Lemma downsample_resamples (kfs : list AnimationKeyframe)
    (recording_fps target_fps : R) :
  (2 <= length kfs)%nat -> target_fps < recording_fps -> recording_fps <> 0 ->
  let sorted_kfs := sorted time kfs in
  let all_times := map time sorted_kfs in
  downsample_keyframes kfs recording_fps target_fps =
  for_append (resample_frame sorted_kfs all_times recording_fps target_fps)
    (range (int (last all_times 0 / recording_fps * target_fps) + 1)).
Proof.
  intros Hlen Hlt Hr sorted_kfs all_times.
  unfold downsample_keyframes. fold sorted_kfs.
  rewrite leb_false by assumption.
  destruct (Nat.eqb_spec (length kfs) 0) as [E | _]; [lia |].
  assert (Hs : length sorted_kfs = length kfs) by apply sorted_length.
  destruct (Nat.ltb_spec (length sorted_kfs) 2) as [L | _]; [lia |].
  assert (Hne : sorted_kfs <> [])
    by (intros E; rewrite E in Hs; simpl in Hs; lia).
  cbn [orb].
  rewrite (getitem_last sorted_kfs (mkAnimationKeyframe 0 None None None) Hne).
  cbn [bind].
  rewrite div_ok by assumption. cbn [bind]. fold all_times.
  replace (time (last sorted_kfs (mkAnimationKeyframe 0 None None None)))
    with (last all_times 0); [reflexivity |].
  unfold all_times. apply last_map_nonempty. exact Hne.
Qed.

Lemma downsample_zero_rate_raises (kfs : list AnimationKeyframe)
    (target_fps : R) :
  (2 <= length kfs)%nat -> target_fps < 0 ->
  downsample_keyframes kfs 0 target_fps = Raise ZeroDivisionError.
Proof.
  intros Hlen Hlt.
  unfold downsample_keyframes.
  rewrite leb_false by assumption.
  destruct (Nat.eqb_spec (length kfs) 0) as [E | _]; [lia |].
  pose proof (sorted_length time kfs) as Hs.
  destruct (Nat.ltb_spec (length (sorted time kfs)) 2) as [L | _]; [lia |].
  assert (Hne : sorted time kfs <> [])
    by (intros E; rewrite E in Hs; simpl in Hs; lia).
  cbn [orb].
  rewrite (getitem_last _ (mkAnimationKeyframe 0 None None None) Hne).
  cbn [bind]. rewrite div_zero. reflexivity.
Qed.

(** C1, as the code has it.  With a recording rate of zero and a non-empty
    keyframe list: a target rate of zero or more returns the list unchanged;
    a negative target rate with two or more keyframes raises
    [ZeroDivisionError], at the division that computes the duration; a
    negative target rate with a single keyframe returns it. *)
Theorem downsample_zero_recording_rate (kfs : list AnimationKeyframe)
    (target_fps : R) :
  kfs <> [] ->
  (0 <= target_fps -> downsample_keyframes kfs 0 target_fps = Ok kfs) /\
  (target_fps < 0 -> (2 <= length kfs)%nat ->
   downsample_keyframes kfs 0 target_fps = Raise ZeroDivisionError) /\
  (target_fps < 0 -> (length kfs < 2)%nat ->
   downsample_keyframes kfs 0 target_fps = Ok kfs).
Proof.
  intros Hne. split; [| split].
  - intros H. unfold downsample_keyframes.
    rewrite leb_true by assumption. rewrite orb_true_r. reflexivity.
  - intros H Hlen. apply downsample_zero_rate_raises; assumption.
  - intros H Hlen. destruct kfs as [| kf [| kf' kfs]];
      [contradiction | | simpl in Hlen; lia].
    unfold downsample_keyframes. rewrite leb_false by assumption.
    reflexivity.
Qed.

Lemma downsample_zero_recording_rate_witness :
  let kfs := [mkAnimationKeyframe 0 (Some (0, 0, 0)) None None;
              mkAnimationKeyframe 1000 (Some (10, 0, 0)) None None] in
  kfs <> [] /\ -30 < 0 /\ (2 <= length kfs)%nat /\
  downsample_keyframes kfs 0 (-30) = Raise ZeroDivisionError.
Proof.
  intros kfs.
  assert (Hne : kfs <> []) by discriminate.
  assert (Hneg : -30 < 0) by lra.
  assert (Hlen : (2 <= length kfs)%nat) by (simpl; lia).
  split; [exact Hne |]. split; [exact Hneg |]. split; [exact Hlen |].
  exact (proj1 (proj2 (downsample_zero_recording_rate kfs (-30) Hne))
           Hneg Hlen).
Defined.

(* ================================================================= *)
(** * Quaternion interpolation *)

Section Quaternions.

Variables x y z w : R.

Let s := x * x + y * y + z * z + w * w.

Lemma sum_squares_nonneg : 0 <= s.
Proof.
  pose proof (Rle_0_sqr x). pose proof (Rle_0_sqr y).
  pose proof (Rle_0_sqr z). pose proof (Rle_0_sqr w).
  unfold s, Rsqr in *. lra.
Qed.

Lemma quat_norm_unit_sq : quat_norm (x, y, z, w) = 1 -> s = 1.
Proof.
  unfold quat_norm. fold s. intros H.
  rewrite <- (sqrt_sqrt s sum_squares_nonneg), H. lra.
Qed.

Lemma quat_norm_sq_unit : s = 1 -> quat_norm (x, y, z, w) = 1.
Proof. unfold quat_norm. fold s. intros ->. apply sqrt_1. Qed.

(** Dividing by a positive length gives magnitude one. *)
Lemma normalized_norm :
  0 < sqrt s ->
  quat_norm (x / sqrt s, y / sqrt s, z / sqrt s, w / sqrt s) = 1.
Proof.
  intros Hl. unfold quat_norm.
  pose proof (sqrt_sqrt s sum_squares_nonneg) as Hs.
  assert (Hn : sqrt s <> 0) by lra.
  assert (Hs0 : s <> 0) by (rewrite <- Hs; nra).
  replace (x / sqrt s * (x / sqrt s) + y / sqrt s * (y / sqrt s) +
           z / sqrt s * (z / sqrt s) + w / sqrt s * (w / sqrt s))
    with (s / (sqrt s * sqrt s)).
  - rewrite Hs. replace (s / s) with 1 by (field; exact Hs0). apply sqrt_1.
  - generalize dependent (sqrt s). intros l _ _ Hl. unfold s. field. exact Hl.
Qed.

(** The normalisation step of [_nlerp_quat]: the result has magnitude one,
    or the interpolated length was zero and it is the zero quaternion. *)
Lemma normalize_step_cases (q : quat) :
  (if ltb 0 (sqrt s)
   then Some (x / sqrt s, y / sqrt s, z / sqrt s, w / sqrt s)
   else Some (x, y, z, w)) = Some q ->
  (0 < sqrt s /\ quat_norm q = 1) \/ (sqrt s = 0 /\ quat_norm q = 0).
Proof.
  destruct (ltb_reflect 0 (sqrt s)) as [L | L]; intros E; injection E as <-.
  - left. split; [exact L | apply normalized_norm, L].
  - right. pose proof (sqrt_pos s) as P.
    assert (sqrt s = 0) as E0 by lra.
    split; [exact E0 |]. unfold quat_norm. fold s. exact E0.
Qed.

End Quaternions.

(** Between two unit quaternions whose dot product is not negative, the
    interpolated quaternion is never zero, whatever the weight. *)
Lemma lerp_length_positive (a0 a1 a2 a3 b0 b1 b2 b3 t : R) :
  a0 * a0 + a1 * a1 + a2 * a2 + a3 * a3 = 1 ->
  b0 * b0 + b1 * b1 + b2 * b2 + b3 * b3 = 1 ->
  0 <= a0 * b0 + a1 * b1 + a2 * b2 + a3 * b3 ->
  0 < (a0 + (b0 - a0) * t) * (a0 + (b0 - a0) * t) +
      (a1 + (b1 - a1) * t) * (a1 + (b1 - a1) * t) +
      (a2 + (b2 - a2) * t) * (a2 + (b2 - a2) * t) +
      (a3 + (b3 - a3) * t) * (a3 + (b3 - a3) * t).
Proof.
  intros Ha Hb Hd.
  set (d := a0 * b0 + a1 * b1 + a2 * b2 + a3 * b3) in *.
  replace ((a0 + (b0 - a0) * t) * (a0 + (b0 - a0) * t) +
           (a1 + (b1 - a1) * t) * (a1 + (b1 - a1) * t) +
           (a2 + (b2 - a2) * t) * (a2 + (b2 - a2) * t) +
           (a3 + (b3 - a3) * t) * (a3 + (b3 - a3) * t))
    with ((1 - t) * (1 - t) * (a0 * a0 + a1 * a1 + a2 * a2 + a3 * a3) +
          t * t * (b0 * b0 + b1 * b1 + b2 * b2 + b3 * b3) +
          2 * (t * (1 - t)) * d) by (unfold d; ring).
  rewrite Ha, Hb.
  assert (Hd1 : d <= 1).
  { assert (0 <= (a0 - b0) * (a0 - b0) + (a1 - b1) * (a1 - b1) +
                 (a2 - b2) * (a2 - b2) + (a3 - b3) * (a3 - b3)) as Hsq.
    { pose proof (Rle_0_sqr (a0 - b0)). pose proof (Rle_0_sqr (a1 - b1)).
      pose proof (Rle_0_sqr (a2 - b2)). pose proof (Rle_0_sqr (a3 - b3)).
      unfold Rsqr in *. lra. }
    replace ((a0 - b0) * (a0 - b0) + (a1 - b1) * (a1 - b1) +
             (a2 - b2) * (a2 - b2) + (a3 - b3) * (a3 - b3))
      with ((a0 * a0 + a1 * a1 + a2 * a2 + a3 * a3) +
            (b0 * b0 + b1 * b1 + b2 * b2 + b3 * b3) - 2 * d) in Hsq
      by (unfold d; ring).
    lra. }
  destruct (Rle_dec 0 (t * (1 - t))) as [P | N].
  - assert (0 <= t * (1 - t) * d) by (apply Rmult_le_pos; assumption).
    nra.
  - assert (t * (1 - t) <= t * (1 - t) * d) by nra.
    nra.
Qed.

(** [_nlerp_quat] of two unit quaternions is a unit quaternion. *)
Lemma nlerp_unit (a b : quat) (t : R) :
  quat_norm a = 1 -> quat_norm b = 1 ->
  exists q, _nlerp_quat (Some a) (Some b) t = Some q /\ quat_norm q = 1.
Proof.
  destruct a as [[[a0 a1] a2] a3], b as [[[b0 b1] b2] b3].
  intros Ha Hb.
  apply quat_norm_unit_sq in Ha, Hb.
  unfold _nlerp_quat.
  destruct (ltb_reflect (a0 * b0 + a1 * b1 + a2 * b2 + a3 * b3) 0) as [L | L];
    cbv zeta.
  - assert (P : 0 < sqrt ((a0 + (- b0 - a0) * t) * (a0 + (- b0 - a0) * t) +
                          (a1 + (- b1 - a1) * t) * (a1 + (- b1 - a1) * t) +
                          (a2 + (- b2 - a2) * t) * (a2 + (- b2 - a2) * t) +
                          (a3 + (- b3 - a3) * t) * (a3 + (- b3 - a3) * t))).
    { apply sqrt_lt_R0. apply lerp_length_positive; [exact Ha | | ].
      - rewrite <- Hb. ring.
      - lra. }
    rewrite (ltb_true _ _ P).
    eexists. split; [reflexivity |]. apply normalized_norm, P.
  - assert (P : 0 < sqrt ((a0 + (b0 - a0) * t) * (a0 + (b0 - a0) * t) +
                          (a1 + (b1 - a1) * t) * (a1 + (b1 - a1) * t) +
                          (a2 + (b2 - a2) * t) * (a2 + (b2 - a2) * t) +
                          (a3 + (b3 - a3) * t) * (a3 + (b3 - a3) * t))).
    { apply sqrt_lt_R0. apply lerp_length_positive; [exact Ha | exact Hb |].
      lra. }
    rewrite (ltb_true _ _ P).
    eexists. split; [reflexivity |]. apply normalized_norm, P.
Qed.

(** Whatever the two quaternions, the result has magnitude one unless the
    interpolated length is zero, and then it has magnitude zero. *)
Lemma nlerp_norm_cases (a b q : quat) (t : R) :
  _nlerp_quat (Some a) (Some b) t = Some q ->
  quat_norm q = 1 \/ quat_norm q = 0.
Proof.
  destruct a as [[[a0 a1] a2] a3], b as [[[b0 b1] b2] b3].
  unfold _nlerp_quat.
  destruct (ltb (a0 * b0 + a1 * b1 + a2 * b2 + a3 * b3) 0); cbv zeta;
    intros E; apply normalize_step_cases in E; tauto.
Qed.

(** C7.  Shortest path: for a unit quaternion [q] and any weight [t], in
    particular any [t] between 0 and 1, interpolating from [q] to [-q] gives
    the same result as interpolating from [q] to [q], and both give [q]. *)
Theorem nlerp_opposite_sign (q : quat) (t : R) :
  quat_norm q = 1 ->
  _nlerp_quat (Some q) (Some (quat_neg q)) t = _nlerp_quat (Some q) (Some q) t /\
  _nlerp_quat (Some q) (Some q) t = Some q.
Proof.
  destruct q as [[[q0 q1] q2] q3]. intros Hq.
  apply quat_norm_unit_sq in Hq.
  assert (Same : _nlerp_quat (Some (q0, q1, q2, q3)) (Some (q0, q1, q2, q3)) t
                 = Some (q0, q1, q2, q3)).
  { unfold _nlerp_quat.
    rewrite (ltb_false _ 0) by lra. cbv zeta.
    replace (q0 + (q0 - q0) * t) with q0 by ring.
    replace (q1 + (q1 - q1) * t) with q1 by ring.
    replace (q2 + (q2 - q2) * t) with q2 by ring.
    replace (q3 + (q3 - q3) * t) with q3 by ring.
    rewrite Hq, sqrt_1, ltb_true by lra.
    unfold Rdiv. rewrite Rinv_1, !Rmult_1_r. reflexivity. }
  split; [| exact Same].
  transitivity (Some (q0, q1, q2, q3)); [| symmetry; exact Same].
  unfold _nlerp_quat, quat_neg.
  rewrite (ltb_true _ 0) by lra. cbv zeta.
  replace (q0 + (- - q0 - q0) * t) with q0 by ring.
  replace (q1 + (- - q1 - q1) * t) with q1 by ring.
  replace (q2 + (- - q2 - q2) * t) with q2 by ring.
  replace (q3 + (- - q3 - q3) * t) with q3 by ring.
  rewrite Hq, sqrt_1, ltb_true by lra.
  unfold Rdiv. rewrite Rinv_1, !Rmult_1_r. reflexivity.
Qed.

Lemma nlerp_opposite_sign_witness :
  quat_norm (0, 0, 0, 1) = 1 /\
  _nlerp_quat (Some (0, 0, 0, 1)) (Some (quat_neg (0, 0, 0, 1))) (1 / 2)
    = _nlerp_quat (Some (0, 0, 0, 1)) (Some (0, 0, 0, 1)) (1 / 2) /\
  _nlerp_quat (Some (0, 0, 0, 1)) (Some (0, 0, 0, 1)) (1 / 2)
    = Some (0, 0, 0, 1).
Proof.
  assert (H : quat_norm (0, 0, 0, 1) = 1).
  { unfold quat_norm.
    replace (0 * 0 + 0 * 0 + 0 * 0 + 1 * 1) with 1 by ring. apply sqrt_1. }
  split; [exact H |].
  exact (nlerp_opposite_sign (0, 0, 0, 1) (1 / 2) H).
Defined.

(* ================================================================= *)
(** * The resampler: one target frame *)

Lemma getitem_nth_error {A : Type} (l : list A) (i : nat) (a : A) :
  nth_error l i = Some a -> getitem l (Z.of_nat i) = Ok a.
Proof.
  intros E.
  assert (i < length l)%nat by (apply nth_error_Some; rewrite E; discriminate).
  rewrite (getitem_nth l i a) by assumption.
  rewrite (nth_error_nth l i a E). reflexivity.
Qed.

Lemma getitem_ok_In {A : Type} (l : list A) (i : Z) (a : A) :
  getitem l i = Ok a -> In a l.
Proof.
  unfold getitem.
  destruct ((if (i <? 0)%Z then (i + Z.of_nat (length l))%Z else i) <? 0)%Z;
    [discriminate |].
  destruct (nth_error l _) as [a' |] eqn:E; [| discriminate].
  intros H. injection H as <-. exact (nth_error_In _ _ E).
Qed.

Lemma getitem_of_nat_inv {A : Type} (l : list A) (i : nat) (a : A) :
  getitem l (Z.of_nat i) = Ok a -> nth_error l i = Some a.
Proof.
  unfold getitem.
  destruct (Z.ltb_spec (Z.of_nat i) 0) as [L | L]; [lia |].
  destruct (Z.ltb_spec (Z.of_nat i) 0) as [L' | L']; [lia |].
  rewrite Nat2Z.id.
  destruct (nth_error l i) as [a' |]; [| discriminate].
  intros H. injection H as <-. reflexivity.
Qed.

(** An index that splits a sorted list at [x] is the one bisection finds. *)
Lemma bisect_right_unique (a : list R) (x : R) (r : nat) :
  StronglySorted Rle a ->
  (r <= length a)%nat ->
  (forall i, (i < r)%nat -> nth i a 0 <= x) ->
  (forall i, (r <= i)%nat -> (i < length a)%nat -> x < nth i a 0) ->
  bisect_right a x = r.
Proof.
  intros Hs Hr Hlo Hup.
  destruct (bisect_right_spec a x Hs) as [Br [Blo Bup]].
  destruct (Nat.lt_trichotomy (bisect_right a x) r) as [L | [E | L]].
  - exfalso.
    pose proof (Hlo _ L) as H1.
    pose proof (Bup (bisect_right a x) (le_n _)) as H2.
    assert (bisect_right a x < length a)%nat as Hl by lia.
    specialize (H2 Hl). lra.
  - exact E.
  - exfalso.
    pose proof (Blo _ L) as H1.
    assert (r < length a)%nat as Hl by lia.
    pose proof (Hup r (le_n _) Hl) as H2. lra.
Qed.

Lemma target_recording_time_ok (recording_fps target_fps : R) (f : Z) :
  target_fps <> 0 ->
  target_recording_time_of recording_fps target_fps f
    = Ok (0 + IZR f / target_fps * recording_fps).
Proof.
  intros H. unfold target_recording_time_of.
  rewrite div_ok by assumption. reflexivity.
Qed.

Lemma target_recording_time_inv (recording_fps target_fps x : R) (f : Z) :
  target_recording_time_of recording_fps target_fps f = Ok x ->
  target_fps <> 0 /\ x = 0 + IZR f / target_fps * recording_fps.
Proof.
  unfold target_recording_time_of, div.
  destruct (eqb_reflect target_fps 0) as [E | E]; simpl; [discriminate |].
  intros H. injection H as <-. split; [exact E | reflexivity].
Qed.

(** The weight is always computed: the division is guarded by [dt > 0]. *)
Lemma interpolation_weight_total (kf_a kf_b : AnimationKeyframe) (x : R) :
  exists t, interpolation_weight kf_a kf_b x = Ok t.
Proof.
  unfold interpolation_weight.
  destruct (ltb_reflect 0 (time kf_b - time kf_a)) as [L | L].
  - rewrite div_ok by lra. eexists. reflexivity.
  - eexists. reflexivity.
Qed.

Lemma interpolate_total (kf_a kf_b : AnimationKeyframe) (x : R) (f : Z) :
  exists t,
    interpolation_weight kf_a kf_b x = Ok t /\
    interpolate kf_a kf_b x f =
    Ok (mkAnimationKeyframe (IZR f)
          (_lerp_tuple3 (position kf_a) (position kf_b) t)
          (_nlerp_quat (rotation kf_a) (rotation kf_b) t)
          (_lerp_tuple3 (scale kf_a) (scale kf_b) t)).
Proof.
  destruct (interpolation_weight_total kf_a kf_b x) as [t Et].
  exists t. split; [exact Et |].
  unfold interpolate. rewrite Et. reflexivity.
Qed.

(** The three branches of the loop body, by the position of the index. *)
Lemma resample_frame_first (sorted_kfs : list AnimationKeyframe)
    (all_times : list R) (recording_fps target_fps x : R) (f : Z) :
  target_recording_time_of recording_fps target_fps f = Ok x ->
  bisect_right all_times x = 0%nat ->
  resample_frame sorted_kfs all_times recording_fps target_fps f =
  (kf <- getitem sorted_kfs 0 ;; Ok (clamp_to kf f)).
Proof.
  intros Ex Ei. unfold resample_frame. rewrite Ex. cbn [bind].
  rewrite Ei. reflexivity.
Qed.

Lemma resample_frame_last (sorted_kfs : list AnimationKeyframe)
    (all_times : list R) (recording_fps target_fps x : R) (f : Z) :
  target_recording_time_of recording_fps target_fps f = Ok x ->
  (0 < bisect_right all_times x)%nat ->
  (length sorted_kfs <= bisect_right all_times x)%nat ->
  resample_frame sorted_kfs all_times recording_fps target_fps f =
  (kf <- getitem sorted_kfs (-1) ;; Ok (clamp_to kf f)).
Proof.
  intros Ex H0 Hl. unfold resample_frame. rewrite Ex. cbn [bind].
  destruct (Nat.eqb_spec (bisect_right all_times x) 0) as [E | _]; [lia |].
  destruct (Nat.leb_spec (length sorted_kfs) (bisect_right all_times x))
    as [_ | L]; [reflexivity | lia].
Qed.

Lemma resample_frame_between (sorted_kfs : list AnimationKeyframe)
    (all_times : list R) (recording_fps target_fps x : R) (f : Z) :
  target_recording_time_of recording_fps target_fps f = Ok x ->
  (0 < bisect_right all_times x < length sorted_kfs)%nat ->
  resample_frame sorted_kfs all_times recording_fps target_fps f =
  (kf_a <- getitem sorted_kfs (Z.of_nat (bisect_right all_times x) - 1) ;;
   kf_b <- getitem sorted_kfs (Z.of_nat (bisect_right all_times x)) ;;
   interpolate kf_a kf_b x f).
Proof.
  intros Ex [H0 Hl]. unfold resample_frame. rewrite Ex. cbn [bind].
  destruct (Nat.eqb_spec (bisect_right all_times x) 0) as [E | _]; [lia |].
  destruct (Nat.leb_spec (length sorted_kfs) (bisect_right all_times x))
    as [L | _]; [lia | reflexivity].
Qed.


Lemma lerp_tuple3_propagates (a b : option vec3) (t : R) :
  propagates_missing a b (_lerp_tuple3 a b t).
Proof.
  unfold propagates_missing.
  repeat split; intros; subst; try reflexivity.
  destruct v as [[v0 v1] v2]. reflexivity.
Qed.

Lemma nlerp_quat_propagates (a b : option quat) (t : R) :
  propagates_missing a b (_nlerp_quat a b t).
Proof.
  unfold propagates_missing.
  repeat split; intros; subst; try reflexivity.
  destruct v as [[[v0 v1] v2] v3]. reflexivity.
Qed.

(** C8.  In the interpolation branch (the index found for the frame's source
    time lies strictly inside the list), the frame is emitted, and for each
    of position, rotation and scale: a value present on exactly one of the two
    bracketing keyframes is carried over unchanged, and a channel absent on
    both is absent in the emitted keyframe. *)
Theorem interpolation_keeps_missing_channels
    (sorted_kfs : list AnimationKeyframe) (all_times : list R)
    (recording_fps target_fps x : R) (f : Z) (kf_a kf_b : AnimationKeyframe) :
  target_recording_time_of recording_fps target_fps f = Ok x ->
  (0 < bisect_right all_times x < length sorted_kfs)%nat ->
  getitem sorted_kfs (Z.of_nat (bisect_right all_times x) - 1) = Ok kf_a ->
  getitem sorted_kfs (Z.of_nat (bisect_right all_times x)) = Ok kf_b ->
  exists out,
    resample_frame sorted_kfs all_times recording_fps target_fps f = Ok out /\
    propagates_missing (position kf_a) (position kf_b) (position out) /\
    propagates_missing (rotation kf_a) (rotation kf_b) (rotation out) /\
    propagates_missing (scale kf_a) (scale kf_b) (scale out).
Proof.
  intros Ex Hidx Ea Eb.
  rewrite (resample_frame_between _ _ _ _ _ _ Ex Hidx), Ea, Eb. cbn [bind].
  destruct (interpolate_total kf_a kf_b x f) as [t [_ Ei]].
  rewrite Ei. eexists. split; [reflexivity |]. cbn [position rotation scale].
  split; [apply lerp_tuple3_propagates |].
  split; [apply nlerp_quat_propagates | apply lerp_tuple3_propagates].
Qed.

(** Bisection on a sorted list of two times. *)
Lemma sorted_two (a b : R) : a <= b -> StronglySorted Rle [a; b].
Proof.
  intros H.
  apply SSorted_cons; [| apply Forall_cons; [exact H | apply Forall_nil]].
  apply SSorted_cons; [apply SSorted_nil | apply Forall_nil].
Qed.

Lemma bisect_right_two (a b x : R) :
  a <= b ->
  (x < a -> bisect_right [a; b] x = 0%nat) /\
  (a <= x < b -> bisect_right [a; b] x = 1%nat) /\
  (b <= x -> bisect_right [a; b] x = 2%nat).
Proof.
  intros Hab. pose proof (sorted_two a b Hab) as Hs.
  split; [| split]; intros Hx; apply bisect_right_unique;
    try exact Hs; simpl; try lia;
    intros [| [| i]]; simpl; intros; try lia; lra.
Qed.

Lemma interpolation_keeps_missing_channels_witness :
  let kf_a := mkAnimationKeyframe 0 (Some (1, 2, 3)) None None in
  let kf_b := mkAnimationKeyframe 1000 None (Some (0, 0, 0, 1)) None in
  let times := [0; 1000] in
  let x := 0 + IZR 15 / 30 * 1000 in
  target_recording_time_of 1000 30 15 = Ok x /\
  (0 < bisect_right times x < length [kf_a; kf_b])%nat /\
  getitem [kf_a; kf_b] (Z.of_nat (bisect_right times x) - 1) = Ok kf_a /\
  getitem [kf_a; kf_b] (Z.of_nat (bisect_right times x)) = Ok kf_b /\
  exists out,
    resample_frame [kf_a; kf_b] times 1000 30 15 = Ok out /\
    propagates_missing (position kf_a) (position kf_b) (position out) /\
    propagates_missing (rotation kf_a) (rotation kf_b) (rotation out) /\
    propagates_missing (scale kf_a) (scale kf_b) (scale out).
Proof.
  intros kf_a kf_b times x.
  assert (Ex : target_recording_time_of 1000 30 15 = Ok x)
    by (apply target_recording_time_ok; lra).
  assert (Ei : bisect_right times x = 1%nat).
  { apply (proj1 (proj2 (bisect_right_two 0 1000 x ltac:(lra)))).
    unfold x. lra. }
  assert (Hi : (0 < bisect_right times x < length [kf_a; kf_b])%nat)
    by (rewrite Ei; simpl; lia).
  assert (Ea : getitem [kf_a; kf_b] (Z.of_nat (bisect_right times x) - 1)
               = Ok kf_a) by (rewrite Ei; reflexivity).
  assert (Eb : getitem [kf_a; kf_b] (Z.of_nat (bisect_right times x))
               = Ok kf_b) by (rewrite Ei; reflexivity).
  split; [exact Ex |]. split; [exact Hi |].
  split; [exact Ea |]. split; [exact Eb |].
  exact (interpolation_keeps_missing_channels
           [kf_a; kf_b] times 1000 30 x 15 kf_a kf_b Ex Hi Ea Eb).
Defined.

(* ================================================================= *)
(** * The resampler: the bracket of the interpolation branch *)

Lemma nth_map_time (l : list AnimationKeyframe) (i : nat)
    (kf : AnimationKeyframe) :
  nth_error l i = Some kf -> nth i (map time l) 0 = time kf.
Proof.
  intros E.
  assert (i < length l)%nat by (apply nth_error_Some; rewrite E; discriminate).
  rewrite (nth_indep _ 0 (time kf)) by (rewrite length_map; assumption).
  rewrite map_nth. rewrite (nth_error_nth l i kf E). reflexivity.
Qed.

Lemma sorted_two_swapped (kf0 kf1 : AnimationKeyframe) :
  time kf0 < time kf1 -> sorted time [kf1; kf0] = [kf0; kf1].
Proof.
  intros H. simpl. rewrite (ltb_true _ _ H). reflexivity.
Qed.

Lemma sorted_two_ordered (kf0 kf1 : AnimationKeyframe) :
  time kf0 <= time kf1 -> sorted time [kf0; kf1] = [kf0; kf1].
Proof.
  intros H. simpl. rewrite (ltb_false _ _ H). reflexivity.
Qed.

(* ================================================================= *)
(** * The resampler: the whole loop *)

Lemma for_append_nth_error {A B : Type} (body : A -> result B)
    (l : list A) (bs : list B) (i : nat) (b : B) :
  for_append body l = Ok bs -> nth_error bs i = Some b ->
  exists a, nth_error l i = Some a /\ body a = Ok b.
Proof.
  intros E. apply for_append_Forall2 in E.
  revert i. induction E as [| a b' l bs Eab F IH]; intros i Hi.
  - destruct i; discriminate.
  - destruct i as [| i]; simpl in Hi.
    + injection Hi as <-. exists a. split; [reflexivity | exact Eab].
    + apply IH, Hi.
Qed.

Lemma range_nth_error (n : Z) (i : nat) (z : Z) :
  nth_error (range n) i = Some z -> z = Z.of_nat i /\ (i < Z.to_nat n)%nat.
Proof.
  intros E.
  assert (Hi : (i < length (range n))%nat)
    by (apply nth_error_Some; rewrite E; discriminate).
  rewrite range_length in Hi. split; [| exact Hi].
  rewrite <- (range_nth n i 0%Z Hi).
  symmetry. apply nth_error_nth, E.
Qed.


(** What a successful resampling returned: one keyframe per target frame,
    each the result of the loop body at its index. *)
Lemma downsample_resampled_inv (kfs out : list AnimationKeyframe)
    (recording_fps target_fps : R) :
  (2 <= length kfs)%nat -> target_fps < recording_fps -> recording_fps <> 0 ->
  downsample_keyframes kfs recording_fps target_fps = Ok out ->
  let sorted_kfs := sorted time kfs in
  let all_times := map time sorted_kfs in
  length out
    = Z.to_nat (int (last all_times 0 / recording_fps * target_fps) + 1) /\
  forall i kf, nth_error out i = Some kf ->
    resample_frame sorted_kfs all_times recording_fps target_fps (Z.of_nat i)
      = Ok kf.
Proof.
  intros Hlen Hlt Hr E sorted_kfs all_times.
  rewrite (downsample_resamples kfs _ _ Hlen Hlt Hr) in E.
  fold sorted_kfs all_times in E.
  split.
  - rewrite (for_append_length _ _ _ E). apply range_length.
  - intros i kf Hi.
    destruct (for_append_nth_error _ _ _ _ _ E Hi) as [z [Hz Hb]].
    apply range_nth_error in Hz as [-> _]. exact Hb.
Qed.


(** With a zero target rate below the recording rate the first frame already
    raises. *)
Lemma downsample_zero_target_raises (kfs : list AnimationKeyframe)
    (recording_fps : R) :
  (2 <= length kfs)%nat -> 0 < recording_fps ->
  downsample_keyframes kfs recording_fps 0 = Raise ZeroDivisionError.
Proof.
  intros Hlen Hr.
  rewrite (downsample_resamples kfs _ _ Hlen Hr) by lra.
  replace (last (map time (sorted time kfs)) 0 / recording_fps * 0)
    with (IZR 0) by ring.
  rewrite (int_nonneg_eq (IZR 0) 0) by lra.
  change (range (0 + 1)) with [0%Z].
  apply for_append_raise.
  unfold resample_frame, target_recording_time_of.
  rewrite div_zero. reflexivity.
Qed.


(* ================================================================= *)
(** * The resampler: clamping at the boundaries *)


(** The ways [downsample_keyframes] returns a list. *)
Lemma downsample_cases (kfs out : list AnimationKeyframe)
    (recording_fps target_fps : R) :
  downsample_keyframes kfs recording_fps target_fps = Ok out ->
  out = kfs \/ out = sorted time kfs \/
  ((2 <= length kfs)%nat /\ target_fps < recording_fps /\ recording_fps <> 0).
Proof.
  intros E.
  destruct (Nat.eq_dec (length kfs) 0) as [L0 | L0].
  { left. apply length_zero_iff_nil in L0. subst kfs.
    unfold downsample_keyframes in E. simpl in E. congruence. }
  destruct (Rle_dec recording_fps target_fps) as [Hle | Hlt].
  { left. unfold downsample_keyframes in E.
    rewrite (leb_true _ _ Hle), orb_true_r in E. congruence. }
  apply Rnot_le_lt in Hlt.
  destruct (le_lt_dec 2 (length kfs)) as [L2 | L2].
  - right. right. split; [exact L2 |]. split; [exact Hlt |].
    intros ->. rewrite downsample_zero_rate_raises in E by assumption.
    discriminate.
  - right. left. unfold downsample_keyframes in E.
    rewrite (leb_false _ _ Hlt) in E.
    destruct (Nat.eqb_spec (length kfs) 0) as [Z0 | _]; [contradiction |].
    cbn [orb] in E.
    destruct (Nat.ltb_spec (length (sorted time kfs)) 2) as [_ | G].
    + congruence.
    + rewrite sorted_length in G. lia.
Qed.


(** A small run of the resampler: keyframes at times 500 and 1000, recorded
    at 1000 and resampled at 2 frames per second.  Frame 0 (source time 0)
    is clamped to the first keyframe, frame 1 (source time 500) is
    interpolated with weight 0, frame 2 (source time 1000) is clamped to the
    last keyframe. *)
Lemma downsample_three_frames :
  let kf_first :=
    mkAnimationKeyframe 500 (Some (0, 0, 0)) (Some (0, 0, 0, 1)) None in
  let kf_last :=
    mkAnimationKeyframe 1000 (Some (10, 0, 0)) (Some (0, 0, 0, 1)) None in
  let t := (0 + IZR 1 / 2 * 1000 - 500) / (1000 - 500) in
  let middle :=
    mkAnimationKeyframe (IZR 1)
      (_lerp_tuple3 (position kf_first) (position kf_last) t)
      (_nlerp_quat (rotation kf_first) (rotation kf_last) t)
      (_lerp_tuple3 (scale kf_first) (scale kf_last) t) in
  downsample_keyframes [kf_first; kf_last] 1000 2
    = Ok [clamp_to kf_first 0; middle; clamp_to kf_last 2].
Proof.
  intros kf_first kf_last t middle.
  rewrite downsample_resamples by (simpl; try lia; lra).
  rewrite sorted_two_ordered by (simpl; lra).
  change (map time [kf_first; kf_last]) with [500; 1000].
  change (last [500; 1000] 0) with 1000.
  rewrite (int_nonneg_eq _ 2) by lra.
  change (range (2 + 1)) with [0%Z; 1%Z; 2%Z].
  assert (L : 500 <= 1000) by lra.
  destruct (bisect_right_two 500 1000 (0 + IZR 0 / 2 * 1000) L) as [B0 _].
  destruct (bisect_right_two 500 1000 (0 + IZR 1 / 2 * 1000) L) as [_ [B1 _]].
  destruct (bisect_right_two 500 1000 (0 + IZR 2 / 2 * 1000) L) as [_ [_ B2]].
  specialize (B0 ltac:(lra)). specialize (B1 ltac:(lra)).
  specialize (B2 ltac:(lra)).
  assert (F0 : resample_frame [kf_first; kf_last] [500; 1000] 1000 2 0
               = Ok (clamp_to kf_first 0)).
  { rewrite (resample_frame_first _ _ _ _ (0 + IZR 0 / 2 * 1000));
      [reflexivity | apply target_recording_time_ok; lra | exact B0]. }
  assert (F1 : resample_frame [kf_first; kf_last] [500; 1000] 1000 2 1
               = Ok middle).
  { rewrite (resample_frame_between _ _ _ _ (0 + IZR 1 / 2 * 1000));
      [| apply target_recording_time_ok; lra | rewrite B1; simpl; lia].
    rewrite B1. change (getitem [kf_first; kf_last] (Z.of_nat 1 - 1))
      with (Ok kf_first).
    change (getitem [kf_first; kf_last] (Z.of_nat 1)) with (Ok kf_last).
    cbn [bind]. unfold interpolate, interpolation_weight.
    change (time kf_last) with 1000. change (time kf_first) with 500.
    rewrite ltb_true by lra. rewrite div_ok by lra. reflexivity. }
  assert (F2 : resample_frame [kf_first; kf_last] [500; 1000] 1000 2 2
               = Ok (clamp_to kf_last 2)).
  { rewrite (resample_frame_last _ _ _ _ (0 + IZR 2 / 2 * 1000));
      [reflexivity | apply target_recording_time_ok; lra
       | rewrite B2; lia | rewrite B2; simpl; lia]. }
  cbn [for_append]. rewrite F0, F1, F2. reflexivity.
Qed.


(* ================================================================= *)
(** * The resampler: unit rotations *)

(** The rotation channel out of [_nlerp_quat] is a unit quaternion when the
    rotations given to it are. *)
Lemma nlerp_quat_unit (a b : option quat) (t : R) (q : quat) :
  (forall qa, a = Some qa -> quat_norm qa = 1) ->
  (forall qb, b = Some qb -> quat_norm qb = 1) ->
  _nlerp_quat a b t = Some q -> quat_norm q = 1.
Proof.
  intros Ha Hb E.
  destruct a as [qa |], b as [qb |].
  - destruct (nlerp_unit qa qb t (Ha qa eq_refl) (Hb qb eq_refl))
      as [q' [E' N]].
    rewrite E in E'. injection E' as <-. exact N.
  - destruct qa as [[[a0 a1] a2] a3]. simpl in E. injection E as <-.
    apply Ha. reflexivity.
  - simpl in E. injection E as <-. apply Hb. reflexivity.
  - discriminate.
Qed.

Lemma resample_frame_unit (sorted_kfs : list AnimationKeyframe)
    (all_times : list R) (recording_fps target_fps : R) (f : Z)
    (kf : AnimationKeyframe) :
  unit_rotations sorted_kfs ->
  resample_frame sorted_kfs all_times recording_fps target_fps f = Ok kf ->
  forall q, rotation kf = Some q -> quat_norm q = 1.
Proof.
  intros U E q Hq. unfold resample_frame in E.
  destruct (target_recording_time_of recording_fps target_fps f)
    as [x | e]; [| discriminate].
  cbn [bind] in E.
  destruct (bisect_right all_times x =? 0)%nat.
  - destruct (getitem sorted_kfs 0) as [kf0 | e] eqn:G; [| discriminate].
    cbn [bind] in E. injection E as <-.
    apply (U kf0 q (getitem_ok_In _ _ _ G) Hq).
  - destruct (length sorted_kfs <=? bisect_right all_times x)%nat.
    + destruct (getitem sorted_kfs (-1)) as [kf1 | e] eqn:G; [| discriminate].
      cbn [bind] in E. injection E as <-.
      apply (U kf1 q (getitem_ok_In _ _ _ G) Hq).
    + destruct (getitem sorted_kfs (Z.of_nat (bisect_right all_times x) - 1))
        as [kf_a | e] eqn:Ga; [| discriminate].
      cbn [bind] in E.
      destruct (getitem sorted_kfs (Z.of_nat (bisect_right all_times x)))
        as [kf_b | e] eqn:Gb; [| discriminate].
      cbn [bind] in E.
      destruct (interpolate_total kf_a kf_b x f) as [t [_ Ei]].
      rewrite Ei in E. injection E as <-. cbn [rotation] in Hq.
      apply (nlerp_quat_unit _ _ _ _
               (fun qa Ea => U kf_a qa (getitem_ok_In _ _ _ Ga) Ea)
               (fun qb Eb => U kf_b qb (getitem_ok_In _ _ _ Gb) Eb) Hq).
Qed.

(** C5.  When every rotation present in the input is a unit quaternion,
    every rotation present in the list [downsample_keyframes] returns has
    magnitude 1.  The normalisation step of [_nlerp_quat] always divides by
    the interpolated length unless that length is zero: its result has
    magnitude 1, or magnitude 0 in the zero-length case. *)
Theorem resampled_rotations_unit (kfs out : list AnimationKeyframe)
    (recording_fps target_fps : R) :
  unit_rotations kfs ->
  downsample_keyframes kfs recording_fps target_fps = Ok out ->
  unit_rotations out /\
  (forall a b t q, _nlerp_quat (Some a) (Some b) t = Some q ->
                   quat_norm q = 1 \/ quat_norm q = 0).
Proof.
  intros U E. split; [| intros a b t q; apply nlerp_norm_cases].
  assert (Us : unit_rotations (sorted time kfs)).
  { intros kf q Hin. apply U. apply (sorted_In time). exact Hin. }
  destruct (downsample_cases kfs out _ _ E) as [-> | [-> | [Hlen [Hlt Hr]]]].
  - exact U.
  - exact Us.
  - destruct (downsample_resampled_inv kfs out _ _ Hlen Hlt Hr E) as [_ F].
    intros kf q Hin Hq.
    apply In_nth_error in Hin as [i Hi].
    exact (resample_frame_unit _ _ _ _ _ _ Us (F i kf Hi) q Hq).
Qed.

Lemma resampled_rotations_unit_witness :
  let kf_first :=
    mkAnimationKeyframe 500 (Some (0, 0, 0)) (Some (0, 0, 0, 1)) None in
  let kf_last :=
    mkAnimationKeyframe 1000 (Some (10, 0, 0)) (Some (0, 0, 0, 1)) None in
  let t := (0 + IZR 1 / 2 * 1000 - 500) / (1000 - 500) in
  let middle :=
    mkAnimationKeyframe (IZR 1)
      (_lerp_tuple3 (position kf_first) (position kf_last) t)
      (_nlerp_quat (rotation kf_first) (rotation kf_last) t)
      (_lerp_tuple3 (scale kf_first) (scale kf_last) t) in
  let kfs := [kf_first; kf_last] in
  let out := [clamp_to kf_first 0; middle; clamp_to kf_last 2] in
  unit_rotations kfs /\
  downsample_keyframes kfs 1000 2 = Ok out /\
  unit_rotations out /\
  (forall a b t q, _nlerp_quat (Some a) (Some b) t = Some q ->
                   quat_norm q = 1 \/ quat_norm q = 0).
Proof.
  intros kf_first kf_last t middle kfs out.
  assert (H1 : unit_rotations kfs).
  { intros kf q [<- | [<- | []]] Hq; simpl in Hq; injection Hq as <-;
      apply quat_norm_sq_unit; ring. }
  pose proof downsample_three_frames as H2. cbv zeta in H2.
  fold kf_first kf_last in H2. fold t in H2. fold middle in H2.
  fold kfs out in H2.
  split; [exact H1 |]. split; [exact H2 |].
  exact (resampled_rotations_unit kfs out 1000 2 H1 H2).
Defined.

(* ================================================================= *)
(** * When the resampler and the range fail *)

Lemma downsample_guard_returns (kfs : list AnimationKeyframe)
    (recording_fps target_fps : R) :
  length kfs = 0%nat \/ recording_fps <= target_fps ->
  downsample_keyframes kfs recording_fps target_fps = Ok kfs.
Proof.
  intros [H | H]; unfold downsample_keyframes.
  - rewrite H. reflexivity.
  - rewrite (leb_true _ _ H), orb_true_r. reflexivity.
Qed.

Lemma downsample_short_returns_sorted (kfs : list AnimationKeyframe)
    (recording_fps target_fps : R) :
  target_fps < recording_fps -> (length kfs < 2)%nat ->
  downsample_keyframes kfs recording_fps target_fps = Ok (sorted time kfs).
Proof.
  intros Hlt Hlen. unfold downsample_keyframes.
  rewrite (leb_false _ _ Hlt).
  destruct kfs as [| kf [| kf' kfs]]; [reflexivity | reflexivity |].
  simpl in Hlen. lia.
Qed.





(* ================================================================= *)
(** * The format adapter *)

Lemma for_append_map {A B : Type} (body : A -> result B) (g : A -> B)
    (l : list A) :
  (forall a, In a l -> body a = Ok (g a)) ->
  for_append body l = Ok (map g l).
Proof.
  induction l as [| a l IH]; intros H; simpl; [reflexivity |].
  rewrite (H a (or_introl eq_refl)). cbn [bind].
  rewrite IH by (intros a' Ha'; apply H; right; exact Ha').
  reflexivity.
Qed.

Lemma length_eqb_nonempty {A : Type} (l : list A) :
  l <> [] -> (length l =? 0)%nat = false.
Proof. destruct l; [contradiction | reflexivity]. Qed.

(** X5.  With downsampling requested but a target rate at or above the recording
    rate, the keyframes pass through the resampler unchanged and the adapter
    then takes their sample times as frame numbers: the frame is
    [start_frame + round(time)], whatever the two rates are. *)
Theorem convert_pass_through_frames (kfs : list AnimationKeyframe)
    (recording_fps target_fps : R) (start_frame : Z) :
  recording_fps <= target_fps ->
  convert_keyframes_to_blender kfs recording_fps target_fps start_frame true
  = Ok (map (fun kf => to_blender (start_frame + round (time kf)) kf) kfs).
Proof.
  intros Hle. unfold convert_keyframes_to_blender.
  destruct kfs as [| kf0 kfs]; [reflexivity |].
  cbn [length Nat.eqb].
  rewrite downsample_guard_returns by (right; exact Hle). cbn [bind].
  apply for_append_map. intros kf _. reflexivity.
Qed.

Lemma convert_pass_through_frames_witness :
  let kfs := [mkAnimationKeyframe 750 None (Some (0, 0, 0, 1)) None;
              mkAnimationKeyframe 0 (Some (1, 2, 3)) None None] in
  30 <= 60 /\
  convert_keyframes_to_blender kfs 30 60 5 true
  = Ok (map (fun kf => to_blender (5 + round (time kf)) kf) kfs).
Proof.
  intros kfs.
  assert (H : 30 <= 60) by lra.
  split; [exact H |].
  exact (convert_pass_through_frames kfs 30 60 5 H).
Defined.

(** After a successful resampling the adapter only renumbers and repacks. *)
Lemma convert_after_downsample (kfs ks : list AnimationKeyframe)
    (recording_fps target_fps : R) (start_frame : Z) :
  kfs <> [] ->
  downsample_keyframes kfs recording_fps target_fps = Ok ks ->
  convert_keyframes_to_blender kfs recording_fps target_fps start_frame true
  = Ok (map (fun kf => to_blender (start_frame + round (time kf)) kf) ks).
Proof.
  intros Hne E. unfold convert_keyframes_to_blender.
  rewrite (length_eqb_nonempty kfs Hne), E. cbn [bind].
  apply for_append_map. intros kf _. reflexivity.
Qed.


(** X8.  Reordering a quaternion for Blender moves the last component to the
    front: it keeps the magnitude, loses nothing (two different quaternions
    stay different) and four reorderings give the quaternion back. *)
Theorem convert_quaternion_reorders (q : quat) :
  quat_norm (convert_quaternion_to_blender q) = quat_norm q /\
  (forall q', convert_quaternion_to_blender q = convert_quaternion_to_blender q'
              -> q = q') /\
  convert_quaternion_to_blender
    (convert_quaternion_to_blender
       (convert_quaternion_to_blender (convert_quaternion_to_blender q))) = q.
Proof.
  destruct q as [[[x y] z] w]. split; [| split].
  - unfold convert_quaternion_to_blender, quat_norm. f_equal. ring.
  - intros [[[x' y'] z'] w'] E. unfold convert_quaternion_to_blender in E.
    injection E as -> -> -> ->. reflexivity.
  - reflexivity.
Qed.

Lemma convert_quaternion_norm (q : quat) :
  quat_norm (convert_quaternion_to_blender q) = quat_norm q.
Proof.
  destruct q as [[[x y] z] w].
  unfold convert_quaternion_to_blender, quat_norm. f_equal. ring.
Qed.

(** Unit rotations in, unit rotations out of the resampler. *)
Lemma downsample_unit (kfs out : list AnimationKeyframe)
    (recording_fps target_fps : R) :
  unit_rotations kfs ->
  downsample_keyframes kfs recording_fps target_fps = Ok out ->
  unit_rotations out.
Proof.
  intros U E.
  assert (Us : unit_rotations (sorted time kfs)).
  { intros kf q Hin. apply U. apply (sorted_In time). exact Hin. }
  destruct (downsample_cases kfs out _ _ E) as [-> | [-> | [Hlen [Hlt Hr]]]];
    [exact U | exact Us |].
  destruct (downsample_resampled_inv kfs out _ _ Hlen Hlt Hr E) as [_ F].
  intros kf q Hin Hq.
  apply In_nth_error in Hin as [i Hi].
  exact (resample_frame_unit _ _ _ _ _ _ Us (F i kf Hi) q Hq).
Qed.

(** What the adapter returned: every Blender keyframe is the repacking of a
    keyframe of the list it looped over, which is the input without
    downsampling and the resampler's output with it. *)
Lemma convert_ok_inv (kfs : list AnimationKeyframe)
    (recording_fps target_fps : R) (start_frame : Z) (downsample : bool)
    (out : list BlenderKeyframe.t) :
  convert_keyframes_to_blender kfs recording_fps target_fps start_frame
    downsample = Ok out ->
  exists ks,
    (if downsample
     then downsample_keyframes kfs recording_fps target_fps = Ok ks
     else ks = kfs) /\
    forall bk, In bk out ->
      exists kf frame, In kf ks /\ bk = to_blender frame kf.
Proof.
  unfold convert_keyframes_to_blender.
  destruct kfs as [| kf0 kfs'].
  { intros E. injection E as <-. exists [].
    split; [destruct downsample; reflexivity | intros bk []]. }
  cbn [length Nat.eqb].
  set (kfs := kf0 :: kfs').
  destruct downsample.
  - destruct (downsample_keyframes kfs recording_fps target_fps)
      as [ks | e]; [| discriminate].
    cbn [bind]. intros E. exists ks. split; [reflexivity |].
    intros bk Hbk. apply In_nth_error in Hbk as [i Hi].
    destruct (for_append_nth_error _ _ _ _ _ E Hi) as [kf [Hk Hb]].
    injection Hb as <-.
    exists kf, (start_frame + round (time kf))%Z.
    split; [exact (nth_error_In _ _ Hk) | reflexivity].
  - cbn [bind]. intros E. exists kfs. split; [reflexivity |].
    intros bk Hbk. apply In_nth_error in Hbk as [i Hi].
    destruct (for_append_nth_error _ _ _ _ _ E Hi) as [kf [Hk Hb]].
    destruct (time_to_frame (time kf) recording_fps target_fps start_frame)
      as [frame | e]; [| discriminate].
    cbn [bind] in Hb. injection Hb as <-.
    exists kf, frame.
    split; [exact (nth_error_In _ _ Hk) | reflexivity].
Qed.

(** X9.  Unit rotations survive the whole conversion: when every rotation of the
    input is a unit quaternion, every [rotation_quaternion] the adapter
    returns has magnitude 1, with or without downsampling. *)
Theorem convert_unit_rotations (kfs : list AnimationKeyframe)
    (recording_fps target_fps : R) (start_frame : Z) (downsample : bool)
    (out : list BlenderKeyframe.t) :
  unit_rotations kfs ->
  convert_keyframes_to_blender kfs recording_fps target_fps start_frame
    downsample = Ok out ->
  forall bk q, In bk out ->
    BlenderKeyframe.rotation_quaternion bk = Some q -> quat_norm q = 1.
Proof.
  intros U E bk q Hbk Hq.
  destruct (convert_ok_inv _ _ _ _ _ _ E) as [ks [Hks Hout]].
  assert (Uk : unit_rotations ks).
  { destruct downsample; [| subst ks; exact U].
    exact (downsample_unit kfs ks _ _ U Hks). }
  destruct (Hout bk Hbk) as [kf [frame [Hin ->]]].
  cbn [to_blender BlenderKeyframe.rotation_quaternion] in Hq.
  destruct (rotation kf) as [q0 |] eqn:Er; [| discriminate].
  injection Hq as <-.
  rewrite convert_quaternion_norm. exact (Uk kf q0 Hin Er).
Qed.

Lemma convert_unit_rotations_witness :
  let kfs := [mkAnimationKeyframe 750 None (Some (0, 0, 0, 1)) None;
              mkAnimationKeyframe 0 (Some (1, 2, 3)) None None] in
  let out := map (fun kf => to_blender (5 + round (time kf)) kf) kfs in
  unit_rotations kfs /\
  convert_keyframes_to_blender kfs 30 60 5 true = Ok out /\
  forall bk q, In bk out ->
    BlenderKeyframe.rotation_quaternion bk = Some q -> quat_norm q = 1.
Proof.
  intros kfs out.
  assert (H1 : unit_rotations kfs).
  { intros kf q [<- | [<- | []]] Hq; simpl in Hq; [| discriminate].
    injection Hq as <-. apply quat_norm_sq_unit. ring. }
  assert (H2 : convert_keyframes_to_blender kfs 30 60 5 true = Ok out).
  { apply convert_after_downsample; [discriminate |].
    apply downsample_guard_returns. right. lra. }
  split; [exact H1 |]. split; [exact H2 |].
  exact (convert_unit_rotations kfs 30 60 5 true out H1 H2).
Defined.

(** X10.  The ends of the quaternion interpolation, for unit quaternions: weight 0
    gives the first quaternion; weight 1 gives the second one, or its
    negation when the dot product of the two is negative. *)
Theorem nlerp_endpoints (a b : quat) :
  quat_norm a = 1 -> quat_norm b = 1 ->
  _nlerp_quat (Some a) (Some b) 0 = Some a /\
  _nlerp_quat (Some a) (Some b) 1 =
    (let '(a0, a1, a2, a3) := a in
     let '(b0, b1, b2, b3) := b in
     if ltb (a0 * b0 + a1 * b1 + a2 * b2 + a3 * b3) 0
     then Some (quat_neg b) else Some b).
Proof.
  destruct a as [[[a0 a1] a2] a3], b as [[[b0 b1] b2] b3].
  intros Ha Hb. apply quat_norm_unit_sq in Ha, Hb.
  unfold _nlerp_quat, quat_neg.
  destruct (ltb (a0 * b0 + a1 * b1 + a2 * b2 + a3 * b3) 0); cbv zeta.
  - split.
    + replace (a0 + (- b0 - a0) * 0) with a0 by ring.
      replace (a1 + (- b1 - a1) * 0) with a1 by ring.
      replace (a2 + (- b2 - a2) * 0) with a2 by ring.
      replace (a3 + (- b3 - a3) * 0) with a3 by ring.
      rewrite Ha, sqrt_1, ltb_true by lra.
      unfold Rdiv. rewrite Rinv_1, !Rmult_1_r. reflexivity.
    + replace (a0 + (- b0 - a0) * 1) with (- b0) by ring.
      replace (a1 + (- b1 - a1) * 1) with (- b1) by ring.
      replace (a2 + (- b2 - a2) * 1) with (- b2) by ring.
      replace (a3 + (- b3 - a3) * 1) with (- b3) by ring.
      replace (- b0 * - b0 + - b1 * - b1 + - b2 * - b2 + - b3 * - b3)
        with (b0 * b0 + b1 * b1 + b2 * b2 + b3 * b3) by ring.
      rewrite Hb, sqrt_1, ltb_true by lra.
      unfold Rdiv. rewrite Rinv_1, !Rmult_1_r. reflexivity.
  - split.
    + replace (a0 + (b0 - a0) * 0) with a0 by ring.
      replace (a1 + (b1 - a1) * 0) with a1 by ring.
      replace (a2 + (b2 - a2) * 0) with a2 by ring.
      replace (a3 + (b3 - a3) * 0) with a3 by ring.
      rewrite Ha, sqrt_1, ltb_true by lra.
      unfold Rdiv. rewrite Rinv_1, !Rmult_1_r. reflexivity.
    + replace (a0 + (b0 - a0) * 1) with b0 by ring.
      replace (a1 + (b1 - a1) * 1) with b1 by ring.
      replace (a2 + (b2 - a2) * 1) with b2 by ring.
      replace (a3 + (b3 - a3) * 1) with b3 by ring.
      rewrite Hb, sqrt_1, ltb_true by lra.
      unfold Rdiv. rewrite Rinv_1, !Rmult_1_r. reflexivity.
Qed.

Lemma nlerp_endpoints_witness :
  quat_norm (0, 0, 0, 1) = 1 /\ quat_norm (0, 0, 1, 0) = 1 /\
  _nlerp_quat (Some (0, 0, 0, 1)) (Some (0, 0, 1, 0)) 0 = Some (0, 0, 0, 1) /\
  _nlerp_quat (Some (0, 0, 0, 1)) (Some (0, 0, 1, 0)) 1 =
    (if ltb (0 * 0 + 0 * 0 + 0 * 1 + 1 * 0) 0
     then Some (quat_neg (0, 0, 1, 0)) else Some (0, 0, 1, 0)).
Proof.
  assert (H1 : quat_norm (0, 0, 0, 1) = 1) by (apply quat_norm_sq_unit; ring).
  assert (H2 : quat_norm (0, 0, 1, 0) = 1) by (apply quat_norm_sq_unit; ring).
  split; [exact H1 |]. split; [exact H2 |].
  exact (nlerp_endpoints (0, 0, 0, 1) (0, 0, 1, 0) H1 H2).
Defined.

(* ================================================================= *)
(** * What the resampler keeps of each channel *)

(** The weight of a bracket found in sorted times. *)
Lemma bracket_weight (sorted_kfs : list AnimationKeyframe) (x : R)
    (kf_a kf_b : AnimationKeyframe) :
  StronglySorted Rle (map time sorted_kfs) ->
  (0 < bisect_right (map time sorted_kfs) x < length sorted_kfs)%nat ->
  getitem sorted_kfs (Z.of_nat (bisect_right (map time sorted_kfs) x) - 1)
    = Ok kf_a ->
  getitem sorted_kfs (Z.of_nat (bisect_right (map time sorted_kfs) x))
    = Ok kf_b ->
  exists t, interpolation_weight kf_a kf_b x = Ok t /\ 0 <= t < 1 /\
            (time kf_a = x -> t = 0).
Proof.
  intros Hs [H0 Hl] Ga Gb.
  destruct (bisect_right_spec (map time sorted_kfs) x Hs) as [_ [Blo Bup]].
  set (idx := bisect_right (map time sorted_kfs) x) in *.
  replace (Z.of_nat idx - 1)%Z with (Z.of_nat (idx - 1)) in Ga by lia.
  apply getitem_of_nat_inv in Ga, Gb.
  assert (Ha : time kf_a <= x).
  { rewrite <- (nth_map_time _ _ _ Ga). apply Blo. lia. }
  assert (Hb : x < time kf_b).
  { rewrite <- (nth_map_time _ _ _ Gb). apply Bup; [lia |].
    rewrite length_map. exact Hl. }
  assert (Hdt : 0 < time kf_b - time kf_a) by lra.
  exists ((x - time kf_a) / (time kf_b - time kf_a)).
  split.
  { unfold interpolation_weight. rewrite (ltb_true _ _ Hdt).
    apply div_ok. lra. }
  split; [split |].
  - apply Rmult_le_pos; [lra |]. left. apply Rinv_0_lt_compat, Hdt.
  - apply Rmult_lt_reg_r with (time kf_b - time kf_a); [exact Hdt |].
    unfold Rdiv. rewrite Rmult_assoc, Rinv_l by lra. lra.
  - intros E. rewrite E. unfold Rdiv. rewrite Rminus_diag. ring.
Qed.

Section ChannelInvariant.

(** A property of each channel that the two interpolation helpers preserve
    for weights between 0 and 1. *)
Variables (Pp Ps : option vec3 -> Prop) (Pr : option quat -> Prop).

Hypothesis Pp_lerp : forall a b t,
  0 <= t <= 1 -> Pp a -> Pp b -> Pp (_lerp_tuple3 a b t).
Hypothesis Ps_lerp : forall a b t,
  0 <= t <= 1 -> Ps a -> Ps b -> Ps (_lerp_tuple3 a b t).
Hypothesis Pr_nlerp : forall a b t,
  0 <= t <= 1 -> Pr a -> Pr b -> Pr (_nlerp_quat a b t).

Let holds (kf : AnimationKeyframe) : Prop :=
  Pp (position kf) /\ Pr (rotation kf) /\ Ps (scale kf).

Lemma resample_frame_invariant (sorted_kfs : list AnimationKeyframe)
    (recording_fps target_fps : R) (f : Z) (kf : AnimationKeyframe) :
  StronglySorted Rle (map time sorted_kfs) ->
  (forall k, In k sorted_kfs -> holds k) ->
  resample_frame sorted_kfs (map time sorted_kfs) recording_fps target_fps f
    = Ok kf ->
  holds kf.
Proof.
  intros Hs H E. unfold resample_frame in E.
  destruct (target_recording_time_of recording_fps target_fps f)
    as [x | e]; [| discriminate].
  cbn [bind] in E.
  destruct (Nat.eqb_spec (bisect_right (map time sorted_kfs) x) 0) as [E0 | N0].
  - destruct (getitem sorted_kfs 0) as [kf0 | e] eqn:G; [| discriminate].
    cbn [bind] in E. injection E as <-.
    exact (H kf0 (getitem_ok_In _ _ _ G)).
  - destruct (Nat.leb_spec (length sorted_kfs)
                (bisect_right (map time sorted_kfs) x)) as [L | L].
    + destruct (getitem sorted_kfs (-1)) as [kf1 | e] eqn:G; [| discriminate].
      cbn [bind] in E. injection E as <-.
      exact (H kf1 (getitem_ok_In _ _ _ G)).
    + destruct (getitem sorted_kfs
                  (Z.of_nat (bisect_right (map time sorted_kfs) x) - 1))
        as [kf_a | e] eqn:Ga; [| discriminate].
      cbn [bind] in E.
      destruct (getitem sorted_kfs
                  (Z.of_nat (bisect_right (map time sorted_kfs) x)))
        as [kf_b | e] eqn:Gb; [| discriminate].
      cbn [bind] in E.
      destruct (bracket_weight sorted_kfs x kf_a kf_b Hs ltac:(lia) Ga Gb)
        as [t [Et [[T0 T1] _]]].
      unfold interpolate in E. rewrite Et in E. cbn [bind] in E.
      injection E as <-.
      destruct (H kf_a (getitem_ok_In _ _ _ Ga)) as [A1 [A2 A3]].
      destruct (H kf_b (getitem_ok_In _ _ _ Gb)) as [B1 [B2 B3]].
      assert (T : 0 <= t <= 1) by lra.
      unfold holds. cbn [position rotation scale].
      split; [apply Pp_lerp; assumption |].
      split; [apply Pr_nlerp; assumption | apply Ps_lerp; assumption].
Qed.

Lemma downsample_invariant (kfs out : list AnimationKeyframe)
    (recording_fps target_fps : R) :
  (forall k, In k kfs -> holds k) ->
  downsample_keyframes kfs recording_fps target_fps = Ok out ->
  forall k, In k out -> holds k.
Proof.
  intros H E.
  assert (Hsk : forall k, In k (sorted time kfs) -> holds k).
  { intros k Hin. apply H. apply (sorted_In time). exact Hin. }
  destruct (downsample_cases kfs out _ _ E) as [-> | [-> | [Hlen [Hlt Hr]]]];
    [exact H | exact Hsk |].
  destruct (downsample_resampled_inv kfs out _ _ Hlen Hlt Hr E) as [_ F].
  intros k Hin. apply In_nth_error in Hin as [i Hi].
  exact (resample_frame_invariant _ _ _ _ _ (sorted_sorted time kfs) Hsk
           (F i k Hi)).
Qed.

End ChannelInvariant.

Lemma lerp_presence (a b : option vec3) (t : R) :
  (a = None -> b = None -> _lerp_tuple3 a b t = None) /\
  (a <> None -> b <> None -> _lerp_tuple3 a b t <> None).
Proof.
  destruct a as [[[a0 a1] a2] |], b as [[[b0 b1] b2] |]; simpl;
    split; intros; try discriminate; try contradiction; reflexivity.
Qed.

Lemma nlerp_presence (a b : option quat) (t : R) :
  (a = None -> b = None -> _nlerp_quat a b t = None) /\
  (a <> None -> b <> None -> _nlerp_quat a b t <> None).
Proof.
  destruct a as [[[[a0 a1] a2] a3] |], b as [[[[b0 b1] b2] b3] |];
    split; intros; try discriminate; try contradiction; try reflexivity.
  unfold _nlerp_quat.
  destruct (ltb (a0 * b0 + a1 * b1 + a2 * b2 + a3 * b3) 0); cbv zeta;
    match goal with |- context [if ?c then _ else _] => destruct c end;
    discriminate.
Qed.

(** X13.  The resampler neither invents nor drops a channel: a channel (position,
    rotation or scale) that no input keyframe has is absent from every
    keyframe it returns, and a channel that every input keyframe has is
    present on every keyframe it returns. *)
Theorem downsample_channel_presence (kfs out : list AnimationKeyframe)
    (recording_fps target_fps : R) :
  downsample_keyframes kfs recording_fps target_fps = Ok out ->
  (absent_everywhere position kfs -> absent_everywhere position out) /\
  (absent_everywhere rotation kfs -> absent_everywhere rotation out) /\
  (absent_everywhere scale kfs -> absent_everywhere scale out) /\
  (present_everywhere position kfs -> present_everywhere position out) /\
  (present_everywhere rotation kfs -> present_everywhere rotation out) /\
  (present_everywhere scale kfs -> present_everywhere scale out).
Proof.
  intros E.
  assert (Inv : forall k, In k out ->
    ((absent_everywhere position kfs -> position k = None) /\
     (present_everywhere position kfs -> position k <> None)) /\
    ((absent_everywhere rotation kfs -> rotation k = None) /\
     (present_everywhere rotation kfs -> rotation k <> None)) /\
    ((absent_everywhere scale kfs -> scale k = None) /\
     (present_everywhere scale kfs -> scale k <> None))).
  { apply (downsample_invariant
             (fun o => (absent_everywhere position kfs -> o = None) /\
                       (present_everywhere position kfs -> o <> None))
             (fun o => (absent_everywhere scale kfs -> o = None) /\
                       (present_everywhere scale kfs -> o <> None))
             (fun o => (absent_everywhere rotation kfs -> o = None) /\
                       (present_everywhere rotation kfs -> o <> None)))
      with (recording_fps := recording_fps) (target_fps := target_fps)
           (kfs := kfs); try exact E.
    - intros a b t _ [A1 A2] [B1 B2].
      destruct (lerp_presence a b t) as [L1 L2]. split; auto.
    - intros a b t _ [A1 A2] [B1 B2].
      destruct (lerp_presence a b t) as [L1 L2]. split; auto.
    - intros a b t _ [A1 A2] [B1 B2].
      destruct (nlerp_presence a b t) as [L1 L2]. split; auto.
    - intros k Hk. repeat split; intros H; apply (H k Hk). }
  repeat split; intros H k Hk; apply (Inv k Hk); exact H.
Qed.

Lemma downsample_channel_presence_witness :
  let kf_first :=
    mkAnimationKeyframe 500 (Some (0, 0, 0)) (Some (0, 0, 0, 1)) None in
  let kf_last :=
    mkAnimationKeyframe 1000 (Some (10, 0, 0)) (Some (0, 0, 0, 1)) None in
  let t := (0 + IZR 1 / 2 * 1000 - 500) / (1000 - 500) in
  let middle :=
    mkAnimationKeyframe (IZR 1)
      (_lerp_tuple3 (position kf_first) (position kf_last) t)
      (_nlerp_quat (rotation kf_first) (rotation kf_last) t)
      (_lerp_tuple3 (scale kf_first) (scale kf_last) t) in
  let kfs := [kf_first; kf_last] in
  let out := [clamp_to kf_first 0; middle; clamp_to kf_last 2] in
  downsample_keyframes kfs 1000 2 = Ok out /\
  absent_everywhere scale kfs /\ present_everywhere position kfs /\
  absent_everywhere scale out /\ present_everywhere position out.
Proof.
  intros kf_first kf_last t middle kfs out.
  pose proof downsample_three_frames as H. cbv zeta in H.
  fold kf_first kf_last in H. fold t in H. fold middle in H.
  fold kfs out in H.
  assert (A : absent_everywhere scale kfs).
  { intros kf [<- | [<- | []]]; reflexivity. }
  assert (P : present_everywhere position kfs).
  { intros kf [<- | [<- | []]]; discriminate. }
  split; [exact H |]. split; [exact A |]. split; [exact P |].
  destruct (downsample_channel_presence kfs out 1000 2 H)
    as [_ [_ [S [Q _]]]].
  split; [exact (S A) | exact (Q P)].
Defined.

(* ================================================================= *)
(** * The animation range holds every converted frame *)









(* ================================================================= *)
(** * The order of the input *)

Section SortPermutation.

Context {A : Type} (key : A -> R).

Lemma insert_by_perm (x : A) (l : list A) :
  Permutation (insert_by key x l) (x :: l).
Proof.
  induction l as [| y l IH]; simpl; [apply Permutation_refl |].
  destruct (ltb (key y) (key x)); [| apply Permutation_refl].
  apply Permutation_trans with (y :: x :: l);
    [apply perm_skip, IH | apply perm_swap].
Qed.

Lemma sorted_perm (l : list A) : Permutation (sorted key l) l.
Proof.
  induction l as [| x l IH]; simpl; [apply perm_nil |].
  apply Permutation_trans with (x :: sorted key l);
    [apply insert_by_perm | apply perm_skip, IH].
Qed.

Lemma key_injective_on (l : list A) (a b : A) :
  NoDup (map key l) -> In a l -> In b l -> key a = key b -> a = b.
Proof.
  induction l as [| c l IH]; intros N Ha Hb E; [contradiction |].
  simpl in N. inversion N as [| k ks Hnin N']; subst.
  destruct Ha as [-> | Ha], Hb as [-> | Hb].
  - reflexivity.
  - exfalso. apply Hnin. rewrite E. apply in_map, Hb.
  - exfalso. apply Hnin. rewrite <- E. apply in_map, Ha.
  - apply IH; assumption.
Qed.

(** With distinct keys there is one sorted arrangement. *)
Lemma sorted_arrangement_unique (l1 l2 : list A) :
  Permutation l1 l2 -> NoDup (map key l1) ->
  StronglySorted Rle (map key l1) -> StronglySorted Rle (map key l2) ->
  l1 = l2.
Proof.
  revert l2. induction l1 as [| a t1 IH]; intros l2 P N S1 S2.
  - apply Permutation_nil in P. subst. reflexivity.
  - destruct l2 as [| b t2].
    { apply Permutation_sym, Permutation_nil in P. discriminate. }
    simpl in S1, S2.
    inversion S1 as [| k1 ks1 S1' F1]; subst.
    inversion S2 as [| k2 ks2 S2' F2]; subst.
    rewrite Forall_forall in F1, F2.
    assert (Hb : In b (a :: t1))
      by (apply (Permutation_in b (Permutation_sym P)); left; reflexivity).
    assert (Ha : In a (b :: t2))
      by (apply (Permutation_in a P); left; reflexivity).
    assert (Lab : key a <= key b).
    { destruct Hb as [-> | Hb]; [lra | apply F1, in_map, Hb]. }
    assert (Lba : key b <= key a).
    { destruct Ha as [-> | Ha]; [lra | apply F2, in_map, Ha]. }
    assert (E : a = b).
    { apply (key_injective_on (a :: t1)); [exact N | left; reflexivity
                                           | exact Hb | lra]. }
    subst b. f_equal.
    apply IH; try assumption.
    + exact (Permutation_cons_inv P).
    + simpl in N. inversion N. assumption.
Qed.

Lemma sorted_perm_eq (l1 l2 : list A) :
  Permutation l1 l2 -> NoDup (map key l1) ->
  sorted key l1 = sorted key l2.
Proof.
  intros P N.
  apply sorted_arrangement_unique.
  - apply Permutation_trans with l1; [apply sorted_perm |].
    apply Permutation_trans with l2; [exact P |].
    apply Permutation_sym, sorted_perm.
  - apply (Permutation_NoDup (l := map key l1)); [| exact N].
    apply Permutation_map, Permutation_sym, sorted_perm.
  - apply sorted_sorted.
  - apply sorted_sorted.
Qed.

End SortPermutation.

(** X16.  Below the recording rate the result does not depend on the order in
    which the keyframes are given, as long as their times are all
    different. *)
Theorem downsample_order_independent (kfs kfs' : list AnimationKeyframe)
    (recording_fps target_fps : R) :
  Permutation kfs kfs' -> NoDup (map time kfs) ->
  target_fps < recording_fps ->
  downsample_keyframes kfs recording_fps target_fps
  = downsample_keyframes kfs' recording_fps target_fps.
Proof.
  intros P N Hlt.
  destruct kfs as [| kf0 kfs0].
  { apply Permutation_nil in P. subst. reflexivity. }
  destruct kfs' as [| kf0' kfs0'].
  { apply Permutation_sym, Permutation_nil in P. discriminate. }
  unfold downsample_keyframes.
  rewrite (leb_false _ _ Hlt).
  cbn [length Nat.eqb orb].
  rewrite (sorted_perm_eq time _ _ P N). reflexivity.
Qed.

Lemma downsample_order_independent_witness :
  let kf0 := mkAnimationKeyframe 0 (Some (0, 0, 0)) None None in
  let kf1 := mkAnimationKeyframe 1000 (Some (10, 0, 0)) None None in
  Permutation [kf1; kf0] [kf0; kf1] /\ NoDup (map time [kf1; kf0]) /\
  30 < 1000 /\
  downsample_keyframes [kf1; kf0] 1000 30
  = downsample_keyframes [kf0; kf1] 1000 30.
Proof.
  intros kf0 kf1.
  assert (H1 : Permutation [kf1; kf0] [kf0; kf1]) by apply perm_swap.
  assert (H2 : NoDup (map time [kf1; kf0])).
  { simpl. apply NoDup_cons; [| apply NoDup_cons; [| apply NoDup_nil]].
    - intros [H | []]. lra.
    - intros []. }
  assert (H3 : 30 < 1000) by lra.
  split; [exact H1 |]. split; [exact H2 |]. split; [exact H3 |].
  exact (downsample_order_independent [kf1; kf0] [kf0; kf1] 1000 30 H1 H2 H3).
Defined.

(* ================================================================= *)
(** * Frames that fall on a keyframe *)







(* ================================================================= *)
(** * Further facts on the rotation interpolation and the range *)





(* ================================================================= *)
(** * Binary64: the number of frames *)

Section F64Facts.




Lemma f64_div_ok (a b : PrimFloat.float) :
  PrimFloat.eqb b PrimFloat.zero = false ->
  F64.div a b = Ok (PrimFloat.div a b).
Proof. intros H. unfold F64.div. rewrite H. reflexivity. Qed.

Lemma f64_div_zero (a b : PrimFloat.float) :
  PrimFloat.eqb b PrimFloat.zero = true ->
  F64.div a b = Raise ZeroDivisionError.
Proof. intros H. unfold F64.div. rewrite H. reflexivity. Qed.



(** [int()] and [round()] raise [OverflowError] or [ValueError] only. *)
Lemma f64_to_integer_errors (g : bool -> positive -> Z -> Z)
    (x : PrimFloat.float) (e : PyError) :
  F64.to_integer g x = Raise e -> e = OverflowError \/ e = ValueError.
Proof.
  unfold F64.to_integer.
  destruct (FloatOps.Prim2SF x); intros E; try discriminate;
    injection E as <-; auto.
Qed.





End F64Facts.




(* ================================================================= *)
(** * Binary64: the weight of an interpolation *)

(** C10, counterexample, in binary64.  Keyframes at times 2^-51 and
    6 + 2^-50, recorded at 6 and resampled at 1 frame per second.  Frame 1
    has source time 6.0; the search returns index 1, strictly inside the
    list, and the bracket is in order, [2^-51 <= 6.0 < 6 + 2^-50]; but both
    [6.0 - 2^-51] and [dt] round to 6.0, so the weight is exactly 1.0, which
    is not below 1. *)
Lemma f64_interpolation_weight_reaches_one :
  let t_a := PrimFloat.div (F64.of_int 1) (F64.of_int (2 ^ 51)) in
  let t_b := PrimFloat.add (F64.of_int 6)
               (PrimFloat.div (F64.of_int 1) (F64.of_int (2 ^ 50))) in
  let kf_a := F64.at_time t_a in
  let kf_b := F64.at_time t_b in
  let sorted_kfs := F64.sorted F64.time [kf_b; kf_a] in
  let x := F64.of_int 6 in
  let idx := F64.bisect_right (map F64.time sorted_kfs) x in
  F64.target_recording_time_of (F64.of_int 6) (F64.of_int 1) 1 = Ok x /\
  (0 < idx < length sorted_kfs)%nat /\
  getitem sorted_kfs (Z.of_nat idx - 1) = Ok kf_a /\
  getitem sorted_kfs (Z.of_nat idx) = Ok kf_b /\
  PrimFloat.leb (F64.time kf_a) x = true /\
  PrimFloat.ltb x (F64.time kf_b) = true /\
  F64.interpolation_weight kf_a kf_b x = F64.of_int 1 /\
  PrimFloat.ltb (F64.interpolation_weight kf_a kf_b x) (F64.of_int 1) = false /\
  F64.downsample_keyframes [kf_b; kf_a] (F64.of_int 6) (F64.of_int 1)
    = Ok [F64.clamp_to kf_a 0; F64.interpolate kf_a kf_b x 1].
Proof.
  cbv zeta.
  repeat split; try (vm_compute; reflexivity); vm_compute; lia.
Qed.

(* ================================================================= *)
(** * Binary64: the animation range *)

(** C9, counterexample, in binary64.  One node whose only keyframe is at
    time -1000, which is then the largest keyframe time: the claimed last
    frame is [0 + round((-1000 / 1000) * 30) = -30], but the code starts its
    maximum at 0 and returns (0, 0). *)
Lemma f64_animation_range_negative_times :
  let nodes := [F64.mkSceneNode [F64.at_time (F64.of_int (-1000))]] in
  F64.get_animation_range nodes (F64.of_int 1000) (F64.of_int 30) 0
    = Ok (0, 0)%Z /\
  F64.round (PrimFloat.mul
               (PrimFloat.div (F64.of_int (-1000)) (F64.of_int 1000))
               (F64.of_int 30)) = Ok (-30)%Z /\
  F64.get_animation_range nodes (F64.of_int 1000) (F64.of_int 30) 0
    <> Ok (0, 0 + -30)%Z.
Proof.
  cbv zeta. split; [vm_compute; reflexivity |].
  split; [vm_compute; reflexivity | vm_compute; discriminate].
Qed.

(** The order of the floats: [<] is irreflexive and transitive, NaN
    included (a comparison with NaN is false). *)
Lemma SFltb_irrefl (f : SpecFloat.spec_float) : SpecFloat.SFltb f f = false.
Proof.
  unfold SpecFloat.SFltb, SpecFloat.SFcompare.
  destruct f as [[|] | [|] | | [|] m e]; try reflexivity;
    rewrite Z.compare_refl;
    change (Pos.compare_cont Eq m m) with (Pos.compare m m);
    rewrite Pos.compare_refl; reflexivity.
Qed.

Lemma SFltb_trans (f1 f2 f3 : SpecFloat.spec_float) :
  SpecFloat.SFltb f1 f2 = true -> SpecFloat.SFltb f2 f3 = true ->
  SpecFloat.SFltb f1 f3 = true.
Proof.
  unfold SpecFloat.SFltb, SpecFloat.SFcompare.
  destruct f1 as [[|] | [|] | | [|] m1 e1];
  destruct f2 as [[|] | [|] | | [|] m2 e2];
  destruct f3 as [[|] | [|] | | [|] m3 e3];
  try (intros; discriminate); try (intros; reflexivity);
  change (Pos.compare_cont Eq m1 m2) with (Pos.compare m1 m2);
  change (Pos.compare_cont Eq m2 m3) with (Pos.compare m2 m3);
  change (Pos.compare_cont Eq m1 m3) with (Pos.compare m1 m3);
  destruct (Z.compare_spec e1 e2); destruct (Z.compare_spec e2 e3);
  destruct (Z.compare_spec e1 e3); subst;
  try (intros; discriminate); try (intros; reflexivity); try lia;
  destruct (Pos.compare_spec m1 m2); destruct (Pos.compare_spec m2 m3);
  destruct (Pos.compare_spec m1 m3); subst; simpl;
  try (intros; discriminate); try (intros; reflexivity); try lia.
Qed.

Lemma f64_ltb_irrefl (x : PrimFloat.float) : PrimFloat.ltb x x = false.
Proof. rewrite FloatAxioms.ltb_spec. apply SFltb_irrefl. Qed.

Lemma f64_ltb_trans (x y z : PrimFloat.float) :
  PrimFloat.ltb x y = true -> PrimFloat.ltb y z = true ->
  PrimFloat.ltb x z = true.
Proof. rewrite !FloatAxioms.ltb_spec. apply SFltb_trans. Qed.

(** One step of the running maximum: what was not above the old maximum is
    not above the new one, and neither is the value just seen. *)
Lemma f64_max_step (acc t : PrimFloat.float) :
  PrimFloat.ltb (F64.max acc t) t = false /\
  (forall u, PrimFloat.ltb acc u = false ->
             PrimFloat.ltb (F64.max acc t) u = false) /\
  (F64.max acc t = acc \/ F64.max acc t = t).
Proof.
  unfold F64.max. destruct (PrimFloat.ltb acc t) eqn:L.
  - split; [apply f64_ltb_irrefl |]. split; [| right; reflexivity].
    intros u Hu. destruct (PrimFloat.ltb t u) eqn:Ltu; [| reflexivity].
    rewrite (f64_ltb_trans acc t u L Ltu) in Hu. discriminate.
  - split; [exact L |]. split; [auto | left; reflexivity].
Qed.

Lemma f64_max_time_keyframes (kfs : list F64.AnimationKeyframe)
    (m0 : PrimFloat.float) :
  let m := fold_left (fun max_time kf => F64.max max_time (F64.time kf))
                     kfs m0 in
  (forall u, PrimFloat.ltb m0 u = false -> PrimFloat.ltb m u = false) /\
  (forall kf, In kf kfs -> PrimFloat.ltb m (F64.time kf) = false) /\
  (m = m0 \/ exists kf, In kf kfs /\ F64.time kf = m).
Proof.
  revert m0. induction kfs as [| kf kfs IH]; intros m0; simpl.
  - split; [auto |]. split; [contradiction | left; reflexivity].
  - destruct (IH (F64.max m0 (F64.time kf))) as [H1 [H2 H3]].
    destruct (f64_max_step m0 (F64.time kf)) as [S1 [S2 S3]].
    split; [| split].
    + intros u Hu. apply H1, S2, Hu.
    + intros kf' [<- | Hin]; [apply H1, S1 | apply H2, Hin].
    + destruct H3 as [E | [kf' [Hin E]]].
      * destruct S3 as [S3 | S3].
        -- left. rewrite E. exact S3.
        -- right. exists kf. split; [left; reflexivity |].
           rewrite E. symmetry. exact S3.
      * right. exists kf'. split; [right; exact Hin | exact E].
Qed.

(** The tracked maximum: not below 0, exceeded by no keyframe time, and
    either the initial 0 or one of the keyframe times. *)
Lemma f64_max_time_of_spec (nodes : list F64.SceneNode) :
  PrimFloat.ltb (F64.max_time_of nodes) PrimFloat.zero = false /\
  (forall node kf, In node nodes -> In kf (F64.keyframes node) ->
     PrimFloat.ltb (F64.max_time_of nodes) (F64.time kf) = false) /\
  (F64.max_time_of nodes = PrimFloat.zero \/
   exists node kf, In node nodes /\ In kf (F64.keyframes node) /\
                   F64.time kf = F64.max_time_of nodes).
Proof.
  unfold F64.max_time_of.
  assert (G : forall m0,
    let m := fold_left
               (fun max_time node =>
                  fold_left (fun max_time kf => F64.max max_time (F64.time kf))
                            (F64.keyframes node) max_time)
               nodes m0 in
    (forall u, PrimFloat.ltb m0 u = false -> PrimFloat.ltb m u = false) /\
    (forall node kf, In node nodes -> In kf (F64.keyframes node) ->
       PrimFloat.ltb m (F64.time kf) = false) /\
    (m = m0 \/
     exists node kf, In node nodes /\ In kf (F64.keyframes node) /\
                     F64.time kf = m)).
  { induction nodes as [| node nodes IH]; intros m0; simpl.
    - split; [auto |]. split; [contradiction | left; reflexivity].
    - destruct (f64_max_time_keyframes (F64.keyframes node) m0)
        as [K1 [K2 K3]].
      destruct (IH (fold_left
                      (fun max_time kf => F64.max max_time (F64.time kf))
                      (F64.keyframes node) m0)) as [H1 [H2 H3]].
      split; [| split].
      + intros u Hu. apply H1, K1, Hu.
      + intros node' kf [<- | Hin] Hkf.
        * apply H1, K2, Hkf.
        * apply (H2 node' kf Hin Hkf).
      + destruct H3 as [E | [node' [kf [Hin [Hkf E]]]]].
        * destruct K3 as [K3 | [kf [Hkf K3]]].
          -- left. rewrite E. exact K3.
          -- right. exists node, kf. repeat split; auto.
             rewrite E. exact K3.
        * right. exists node', kf. repeat split; auto. }
  destruct (G PrimFloat.zero) as [G1 [G2 G3]].
  split; [apply G1, f64_ltb_irrefl |]. split; assumption.
Qed.

(** C9, as the code has it, in binary64.  [get_animation_range] returns
    [(start_frame, start_frame + round(p))] where [p] is the product
    [(max_time / recording_fps) * target_fps] as the code computes it, and it
    raises where the division or the rounding raises.  [max_time] is the
    largest of 0 and the keyframe times: it is not below 0, no keyframe time
    of any node exceeds it, and it is 0 or one of the keyframe times.  When
    it is 2000, at rates 1000 and 30 from frame 0, the range is (0, 60). *)
Theorem f64_animation_range_from_zero (nodes : list F64.SceneNode)
    (recording_fps target_fps : PrimFloat.float) (start_frame : Z) :
  let max_time := F64.max_time_of nodes in
  F64.get_animation_range nodes recording_fps target_fps start_frame =
    (product <- F64.frame_product max_time recording_fps target_fps ;;
     rounded <- F64.round product ;;
     Ok (start_frame, (start_frame + rounded)%Z)) /\
  PrimFloat.ltb max_time PrimFloat.zero = false /\
  (forall node kf, In node nodes -> In kf (F64.keyframes node) ->
     PrimFloat.ltb max_time (F64.time kf) = false) /\
  (max_time = PrimFloat.zero \/
   exists node kf, In node nodes /\ In kf (F64.keyframes node) /\
                   F64.time kf = max_time) /\
  (max_time = F64.of_int 2000 ->
   F64.get_animation_range nodes (F64.of_int 1000) (F64.of_int 30) 0
     = Ok (0, 60)%Z).
Proof.
  intros max_time.
  destruct (f64_max_time_of_spec nodes) as [S1 [S2 S3]].
  split; [| split; [exact S1 | split; [exact S2 | split; [exact S3 |]]]].
  - unfold F64.get_animation_range, F64.frame_product. fold max_time.
    destruct (F64.div max_time recording_fps) as [d | e]; reflexivity.
  - intros E. unfold F64.get_animation_range. fold max_time. rewrite E.
    vm_compute. reflexivity.
Qed.

Lemma f64_animation_range_from_zero_witness :
  let nodes := [F64.mkSceneNode [F64.at_time (F64.of_int 500);
                                 F64.at_time (F64.of_int 2000)];
                F64.mkSceneNode [F64.at_time (F64.of_int 1200)]] in
  F64.max_time_of nodes = F64.of_int 2000 /\
  F64.get_animation_range nodes (F64.of_int 1000) (F64.of_int 30) 0
    = Ok (0, 60)%Z.
Proof.
  intros nodes.
  assert (H : F64.max_time_of nodes = F64.of_int 2000)
    by (vm_compute; reflexivity).
  split; [exact H |].
  exact (proj2 (proj2 (proj2 (proj2
           (f64_animation_range_from_zero nodes (F64.of_int 1000)
              (F64.of_int 30) 0)))) H).
Defined.

(* ================================================================= *)
(** * Binary64: when the resampler fails *)


(* ================================================================= *)
(** * The time-base mapper at sample zero *)

(** C6.  For a zero [time_value], a non-zero recording rate and any target
    rate and start frame, [time_to_frame] returns
    [start_frame + round((time_value / recording_fps) * target_fps)] with
    the rounding that sends ties away from zero.  The product is 0 there, so
    no tie arises and the result is [start_frame]. *)
Theorem time_to_frame_zero_time (recording_fps target_fps : R)
    (start_frame : Z) :
  recording_fps <> 0 ->
  time_to_frame 0 recording_fps target_fps start_frame
    = Ok (start_frame
          + round_half_away_from_zero (0 / recording_fps * target_fps))%Z /\
  0 / recording_fps * target_fps = 0 /\
  time_to_frame 0 recording_fps target_fps start_frame = Ok start_frame.
Proof.
  intros Hr.
  assert (P : 0 / recording_fps * target_fps = 0)
    by (unfold Rdiv; rewrite !Rmult_0_l; reflexivity).
  assert (E : time_to_frame 0 recording_fps target_fps start_frame
              = Ok start_frame).
  { unfold time_to_frame. rewrite div_ok by assumption. cbn [bind].
    rewrite P. change 0 with (IZR 0). rewrite round_IZR, Z.add_0_r.
    reflexivity. }
  split; [| split; [exact P | exact E]].
  rewrite E, P.
  rewrite (round_half_away_nonneg_eq 0 0); [| lra | simpl; lra].
  rewrite Z.add_0_r. reflexivity.
Qed.

Lemma time_to_frame_zero_time_witness :
  1000 <> 0 /\
  time_to_frame 0 1000 30 7
    = Ok (7 + round_half_away_from_zero (0 / 1000 * 30))%Z /\
  0 / 1000 * 30 = 0 /\
  time_to_frame 0 1000 30 7 = Ok 7%Z.
Proof.
  assert (H : 1000 <> 0) by lra.
  split; [exact H |].
  exact (time_to_frame_zero_time 1000 30 7 H).
Defined.

(* ================================================================= *)
(** * The bracket of the interpolation branch, with its closed bound *)

(** C10, as the code has it.  When the index found by the right-biased
    search in the sorted times lies strictly between 0 and the length, the
    keyframes read at [idx - 1] and [idx] satisfy
    [kf_a.time <= x < kf_b.time]; so [kf_b.time - kf_a.time] is positive, the
    test [dt > 0] succeeds (the fallback [t = 0.0] is not taken), the
    division by [dt] returns, and the weight lies between 0 and 1, both
    ends included. *)
Theorem interpolation_bracket_closed (kfs : list AnimationKeyframe) (x : R) :
  let sorted_kfs := sorted time kfs in
  let idx := bisect_right (map time sorted_kfs) x in
  (0 < idx < length sorted_kfs)%nat ->
  exists kf_a kf_b t,
    getitem sorted_kfs (Z.of_nat idx - 1) = Ok kf_a /\
    getitem sorted_kfs (Z.of_nat idx) = Ok kf_b /\
    time kf_a <= x < time kf_b /\
    0 < time kf_b - time kf_a /\
    ltb 0 (time kf_b - time kf_a) = true /\
    interpolation_weight kf_a kf_b x = Ok t /\
    0 <= t <= 1.
Proof.
  intros sorted_kfs idx [H0 Hl].
  pose proof (sorted_sorted time kfs) as Hs. fold sorted_kfs in Hs.
  destruct (bisect_right_spec (map time sorted_kfs) x Hs) as [_ [Blo Bup]].
  fold idx in Blo, Bup.
  destruct (nth_error sorted_kfs (idx - 1)) as [kf_a |] eqn:Ea;
    [| apply nth_error_None in Ea; lia].
  destruct (nth_error sorted_kfs idx) as [kf_b |] eqn:Eb;
    [| apply nth_error_None in Eb; lia].
  assert (Ga : getitem sorted_kfs (Z.of_nat idx - 1) = Ok kf_a).
  { replace (Z.of_nat idx - 1)%Z with (Z.of_nat (idx - 1)) by lia.
    apply getitem_nth_error, Ea. }
  pose proof (getitem_nth_error _ _ _ Eb) as Gb.
  assert (Ha : time kf_a <= x).
  { rewrite <- (nth_map_time _ _ _ Ea). apply Blo. lia. }
  assert (Hb : x < time kf_b).
  { rewrite <- (nth_map_time _ _ _ Eb). apply Bup; [lia |].
    rewrite length_map. exact Hl. }
  assert (Hdt : 0 < time kf_b - time kf_a) by lra.
  destruct (bracket_weight sorted_kfs x kf_a kf_b Hs (conj H0 Hl) Ga Gb)
    as [t [Et [[T0 T1] _]]].
  exists kf_a, kf_b, t.
  split; [exact Ga |]. split; [exact Gb |].
  split; [split; assumption |]. split; [exact Hdt |].
  split; [apply ltb_true, Hdt |]. split; [exact Et |].
  split; [exact T0 | lra].
Qed.

Lemma interpolation_bracket_closed_witness :
  let kf0 := mkAnimationKeyframe 0 (Some (0, 0, 0)) None None in
  let kf1 := mkAnimationKeyframe 1000 (Some (10, 0, 0)) None None in
  let kfs := [kf1; kf0] in
  let x := 500 in
  let sorted_kfs := sorted time kfs in
  let idx := bisect_right (map time sorted_kfs) x in
  (0 < idx < length sorted_kfs)%nat /\
  exists kf_a kf_b t,
    getitem sorted_kfs (Z.of_nat idx - 1) = Ok kf_a /\
    getitem sorted_kfs (Z.of_nat idx) = Ok kf_b /\
    time kf_a <= x < time kf_b /\
    0 < time kf_b - time kf_a /\
    ltb 0 (time kf_b - time kf_a) = true /\
    interpolation_weight kf_a kf_b x = Ok t /\
    0 <= t <= 1.
Proof.
  intros kf0 kf1 kfs x sorted_kfs idx.
  assert (Es : sorted_kfs = [kf0; kf1]).
  { apply sorted_two_swapped. simpl. lra. }
  assert (Ei : idx = 1%nat).
  { unfold idx. rewrite Es.
    apply (proj1 (proj2 (bisect_right_two 0 1000 x ltac:(lra)))).
    unfold x. lra. }
  assert (Hi : (0 < idx < length sorted_kfs)%nat)
    by (rewrite Ei, Es; simpl; lia).
  split; [exact Hi |].
  exact (interpolation_bracket_closed kfs x Hi).
Defined.

(* ================================================================= *)
(** * Binary64: the time-base mapper at sample zero *)

Lemma Prim2SF_zero : FloatOps.Prim2SF PrimFloat.zero = SpecFloat.S754_zero false.
Proof. vm_compute. reflexivity. Qed.

Lemma Prim2SF_infinity :
  FloatOps.Prim2SF PrimFloat.infinity = SpecFloat.S754_infinity false.
Proof. vm_compute. reflexivity. Qed.

Lemma f64_eqb_zero_zero : PrimFloat.eqb PrimFloat.zero PrimFloat.zero = true.
Proof. vm_compute. reflexivity. Qed.

(** A float equal to zero is one of the two zeros. *)
Lemma f64_eqb_zero (x : PrimFloat.float) :
  PrimFloat.eqb x PrimFloat.zero = true ->
  exists s, FloatOps.Prim2SF x = SpecFloat.S754_zero s.
Proof.
  rewrite FloatAxioms.eqb_spec, Prim2SF_zero.
  destruct (FloatOps.Prim2SF x) as [s | [|] | | [|] m e]; simpl;
    try discriminate.
  intros _. exists s. reflexivity.
Qed.

(** The quotient and the product at a zero sample time are zeros, which
    [round()] sends to 0. *)
Lemma f64_round_zero_product
    (time_value recording_fps target_fps : PrimFloat.float) :
  PrimFloat.eqb time_value PrimFloat.zero = true ->
  PrimFloat.eqb recording_fps PrimFloat.zero = false ->
  PrimFloat.is_nan recording_fps = false ->
  PrimFloat.is_finite target_fps = true ->
  F64.round (PrimFloat.mul (PrimFloat.div time_value recording_fps) target_fps)
  = Ok 0%Z.
Proof.
  intros Ht Hr Hn Hf.
  destruct (f64_eqb_zero _ Ht) as [s Es].
  assert (P : exists s', FloatOps.Prim2SF
                (PrimFloat.mul (PrimFloat.div time_value recording_fps)
                               target_fps) = SpecFloat.S754_zero s').
  { rewrite FloatAxioms.mul_spec, FloatAxioms.div_spec, Es.
    unfold PrimFloat.is_nan in Hn.
    rewrite !FloatAxioms.eqb_spec, ?Prim2SF_zero in Hr, Hn.
    unfold PrimFloat.is_finite, PrimFloat.is_nan, PrimFloat.is_infinity in Hf.
    rewrite !FloatAxioms.eqb_spec, FloatAxioms.abs_spec, Prim2SF_infinity in Hf.
    destruct (FloatOps.Prim2SF recording_fps) as [sr | sr | | sr mr er];
      try discriminate;
      destruct (FloatOps.Prim2SF target_fps) as [st | [|] | | st mt et];
      try discriminate; simpl; eexists; reflexivity. }
  destruct P as [s' P].
  unfold F64.round, F64.to_integer. rewrite P. reflexivity.
Qed.

(** X20.  In binary64, at a [time_value] that is zero (of either sign), a
    recording rate that is a number other than zero and a finite target
    rate, [time_to_frame] returns [start_frame]: the quotient and the
    product are zeros, which [round()] sends to 0.  (With an infinite target
    rate the product [0 * inf] is NaN and [round()] raises.) *)
Theorem f64_time_to_frame_zero_time
    (time_value recording_fps target_fps : PrimFloat.float) (start_frame : Z) :
  PrimFloat.eqb time_value PrimFloat.zero = true ->
  PrimFloat.eqb recording_fps PrimFloat.zero = false ->
  PrimFloat.is_nan recording_fps = false ->
  PrimFloat.is_finite target_fps = true ->
  F64.time_to_frame time_value recording_fps target_fps start_frame
  = Ok start_frame.
Proof.
  intros Ht Hr Hn Hf.
  unfold F64.time_to_frame. rewrite (f64_div_ok _ _ Hr). cbn [bind].
  rewrite (f64_round_zero_product _ _ _ Ht Hr Hn Hf). cbn [bind].
  rewrite Z.add_0_r. reflexivity.
Qed.

Lemma f64_time_to_frame_zero_time_witness :
  PrimFloat.eqb (F64.of_int 0) PrimFloat.zero = true /\
  PrimFloat.eqb (F64.of_int 1000) PrimFloat.zero = false /\
  PrimFloat.is_nan (F64.of_int 1000) = false /\
  PrimFloat.is_finite (F64.of_int 30) = true /\
  F64.time_to_frame (F64.of_int 0) (F64.of_int 1000) (F64.of_int 30) 7
  = Ok 7%Z.
Proof.
  assert (H1 : PrimFloat.eqb (F64.of_int 0) PrimFloat.zero = true)
    by (vm_compute; reflexivity).
  assert (H2 : PrimFloat.eqb (F64.of_int 1000) PrimFloat.zero = false)
    by (vm_compute; reflexivity).
  assert (H3 : PrimFloat.is_nan (F64.of_int 1000) = false)
    by (vm_compute; reflexivity).
  assert (H4 : PrimFloat.is_finite (F64.of_int 30) = true)
    by (vm_compute; reflexivity).
  split; [exact H1 |]. split; [exact H2 |]. split; [exact H3 |].
  split; [exact H4 |].
  exact (f64_time_to_frame_zero_time (F64.of_int 0) (F64.of_int 1000)
           (F64.of_int 30) 7 H1 H2 H3 H4).
Defined.

(* ================================================================= *)
(** * Binary64: the bracket of the interpolation branch *)

(** More of the order of the floats.  [x < u] and [not (v < u)] give
    [x < v] when [v] is a number. *)
Lemma SFltb_nlt_trans (x u v : SpecFloat.spec_float) :
  SpecFloat.SFltb x u = true -> SpecFloat.SFltb v u = false ->
  SpecFloat.SFeqb v v = true -> SpecFloat.SFltb x v = true.
Proof.
  unfold SpecFloat.SFltb, SpecFloat.SFeqb, SpecFloat.SFcompare.
  destruct x as [[|] | [|] | | [|] m1 e1];
  destruct u as [[|] | [|] | | [|] m2 e2];
  destruct v as [[|] | [|] | | [|] m3 e3];
  try (intros; discriminate); try (intros; reflexivity);
  change (Pos.compare_cont Eq m1 m2) with (Pos.compare m1 m2);
  change (Pos.compare_cont Eq m3 m2) with (Pos.compare m3 m2);
  change (Pos.compare_cont Eq m1 m3) with (Pos.compare m1 m3);
  change (Pos.compare_cont Eq m3 m3) with (Pos.compare m3 m3);
  destruct (Z.compare_spec e1 e2); destruct (Z.compare_spec e3 e2);
  destruct (Z.compare_spec e1 e3); subst;
  try (intros; discriminate); try (intros; reflexivity); try lia;
  destruct (Pos.compare_spec m1 m2); destruct (Pos.compare_spec m3 m2);
  destruct (Pos.compare_spec m1 m3); subst; simpl;
  try (intros; discriminate); try (intros; reflexivity); try lia.
Qed.

Lemma SFeqb_refl (f : SpecFloat.spec_float) :
  f <> SpecFloat.S754_nan -> SpecFloat.SFeqb f f = true.
Proof.
  unfold SpecFloat.SFeqb, SpecFloat.SFcompare.
  destruct f as [[|] | [|] | | [|] m e]; try reflexivity;
    try (intros H; contradiction H; reflexivity);
    intros _; rewrite Z.compare_refl;
    change (Pos.compare_cont Eq m m) with (Pos.compare m m);
    rewrite Pos.compare_refl; reflexivity.
Qed.

Lemma SFltb_number (x y : SpecFloat.spec_float) :
  SpecFloat.SFltb x y = true ->
  SpecFloat.SFeqb x x = true /\ SpecFloat.SFeqb y y = true.
Proof.
  intros L. split; apply SFeqb_refl; intros E; subst;
    [| destruct x]; discriminate.
Qed.

Lemma SFnlt_leb (x a : SpecFloat.spec_float) :
  SpecFloat.SFltb x a = false ->
  SpecFloat.SFeqb x x = true -> SpecFloat.SFeqb a a = true ->
  SpecFloat.SFleb a x = true.
Proof.
  unfold SpecFloat.SFltb, SpecFloat.SFleb, SpecFloat.SFeqb,
    SpecFloat.SFcompare.
  destruct x as [[|] | [|] | | [|] m1 e1];
  destruct a as [[|] | [|] | | [|] m2 e2];
  try (intros; discriminate); try (intros; reflexivity);
  change (Pos.compare_cont Eq m1 m2) with (Pos.compare m1 m2);
  change (Pos.compare_cont Eq m2 m1) with (Pos.compare m2 m1);
  rewrite (Z.compare_antisym e1 e2), (Pos.compare_antisym m1 m2);
  destruct (e1 ?= e2)%Z; destruct (m1 ?= m2)%positive; simpl;
  try (intros; discriminate); try (intros; reflexivity).
Qed.

Section F64Order.

Implicit Types x y z : PrimFloat.float.

(** [x] is a number (not NaN) when it equals itself. *)
Lemma f64_is_nan_eqb x :
  PrimFloat.is_nan x = false <->
  SpecFloat.SFeqb (FloatOps.Prim2SF x) (FloatOps.Prim2SF x) = true.
Proof.
  unfold PrimFloat.is_nan. rewrite FloatAxioms.eqb_spec.
  destruct (SpecFloat.SFeqb _ _); simpl; split; congruence.
Qed.

Lemma f64_ltb_nlt_trans x y z :
  PrimFloat.ltb x y = true -> PrimFloat.ltb z y = false ->
  PrimFloat.is_nan z = false -> PrimFloat.ltb x z = true.
Proof.
  rewrite f64_is_nan_eqb, !FloatAxioms.ltb_spec. apply SFltb_nlt_trans.
Qed.

Lemma f64_ltb_asym x y :
  PrimFloat.ltb x y = true -> PrimFloat.ltb y x = false.
Proof.
  intros L. destruct (PrimFloat.ltb y x) eqn:L'; [| reflexivity].
  rewrite <- (f64_ltb_irrefl x). symmetry.
  apply (f64_ltb_trans x y x L L').
Qed.

Lemma f64_ltb_number x y :
  PrimFloat.ltb x y = true ->
  PrimFloat.is_nan x = false /\ PrimFloat.is_nan y = false.
Proof.
  rewrite !f64_is_nan_eqb, FloatAxioms.ltb_spec. apply SFltb_number.
Qed.

Lemma f64_nlt_leb x y :
  PrimFloat.ltb x y = false ->
  PrimFloat.is_nan x = false -> PrimFloat.is_nan y = false ->
  PrimFloat.leb y x = true.
Proof.
  rewrite !f64_is_nan_eqb, FloatAxioms.ltb_spec, FloatAxioms.leb_spec.
  apply SFnlt_leb.
Qed.

End F64Order.

Section F64SortFacts.

Context {A : Type} (key : A -> PrimFloat.float).

Lemma f64_insert_by_In (x y : A) (l : list A) :
  In y (F64.insert_by key x l) <-> y = x \/ In y l.
Proof.
  induction l as [| z l IH]; simpl.
  - intuition auto.
  - destruct (PrimFloat.ltb (key z) (key x)); simpl; [rewrite IH |];
      intuition auto.
Qed.

Lemma f64_sorted_In (y : A) (l : list A) :
  In y (F64.sorted key l) <-> In y l.
Proof.
  induction l as [| x l IH]; simpl; [reflexivity |].
  rewrite f64_insert_by_In, IH. intuition auto.
Qed.

Lemma f64_insert_by_Forall (P : PrimFloat.float -> Prop) (x : A)
    (l : list A) :
  P (key x) -> Forall P (map key l) ->
  Forall P (map key (F64.insert_by key x l)).
Proof.
  intros Hx. induction l as [| y l IH]; simpl; intros F.
  - constructor; [exact Hx | constructor].
  - inversion F as [| k ks Hy Fl]; subst.
    destruct (PrimFloat.ltb (key y) (key x)); simpl.
    + constructor; [exact Hy | apply IH, Fl].
    + constructor; [exact Hx | exact F].
Qed.

Lemma f64_insert_by_sorted (x : A) (l : list A) :
  PrimFloat.is_nan (key x) = false ->
  Forall (fun t => PrimFloat.is_nan t = false) (map key l) ->
  StronglySorted (fun u v => PrimFloat.ltb v u = false) (map key l) ->
  StronglySorted (fun u v => PrimFloat.ltb v u = false)
                 (map key (F64.insert_by key x l)).
Proof.
  intros Nx. induction l as [| y l IH]; simpl; intros N S.
  - constructor; constructor.
  - inversion S as [| k ks Sl Fl]; subst.
    inversion N as [| k ks Ny Nl]; subst.
    destruct (PrimFloat.ltb (key y) (key x)) eqn:L; simpl.
    + constructor; [apply IH; assumption |].
      apply f64_insert_by_Forall; [apply f64_ltb_asym, L | exact Fl].
    + constructor; [exact S |].
      constructor; [exact L |].
      rewrite Forall_forall in Fl. apply Forall_forall. intros t Ht.
      destruct (PrimFloat.ltb t (key x)) eqn:Lt; [| reflexivity].
      rewrite <- (Fl t Ht). symmetry.
      apply (f64_ltb_nlt_trans t (key x) (key y) Lt L Ny).
Qed.

(** [sorted] puts keys that are numbers in non-decreasing order. *)
Lemma f64_sorted_sorted (l : list A) :
  Forall (fun t => PrimFloat.is_nan t = false) (map key l) ->
  StronglySorted (fun u v => PrimFloat.ltb v u = false)
                 (map key (F64.sorted key l)) /\
  Forall (fun t => PrimFloat.is_nan t = false) (map key (F64.sorted key l)).
Proof.
  induction l as [| x l IH]; simpl; intros N.
  - split; constructor.
  - inversion N as [| k ks Nx Nl]; subst.
    destruct (IH Nl) as [S N'].
    split; [apply f64_insert_by_sorted; assumption |].
    apply f64_insert_by_Forall; assumption.
Qed.

End F64SortFacts.

Lemma f64_strongly_sorted_nth (a : list PrimFloat.float) (i j : nat) :
  StronglySorted (fun u v => PrimFloat.ltb v u = false) a ->
  (i <= j)%nat -> (j < length a)%nat ->
  PrimFloat.ltb (nth j a PrimFloat.zero) (nth i a PrimFloat.zero) = false.
Proof.
  intros S. revert i j. induction S as [| r a S IH F]; intros i j Hij Hj.
  - simpl in Hj. lia.
  - simpl in Hj. destruct i as [| i], j as [| j]; simpl; try lia.
    + apply f64_ltb_irrefl.
    + rewrite Forall_forall in F. apply F, nth_In. lia.
    + apply IH; lia.
Qed.

(** What the bisection loop returns on a sorted list of numbers: [x] is
    below nothing before the returned index and below everything from it
    on. *)
Lemma f64_bisect_loop_spec (a : list PrimFloat.float) (x : PrimFloat.float)
    (lo hi : nat) :
  StronglySorted (fun u v => PrimFloat.ltb v u = false) a ->
  Forall (fun t => PrimFloat.is_nan t = false) a ->
  (lo <= hi)%nat -> (hi <= length a)%nat ->
  (forall i, (i < lo)%nat -> PrimFloat.ltb x (nth i a PrimFloat.zero) = false) ->
  (forall i, (hi <= i)%nat -> (i < length a)%nat ->
             PrimFloat.ltb x (nth i a PrimFloat.zero) = true) ->
  let r := F64.bisect_loop a x lo hi in
  (lo <= r)%nat /\ (r <= hi)%nat /\
  (forall i, (i < r)%nat -> PrimFloat.ltb x (nth i a PrimFloat.zero) = false) /\
  (forall i, (r <= i)%nat -> (i < length a)%nat ->
             PrimFloat.ltb x (nth i a PrimFloat.zero) = true).
Proof.
  intros Hs Hn.
  assert (Num : forall i, (i < length a)%nat ->
                          PrimFloat.is_nan (nth i a PrimFloat.zero) = false).
  { intros i Hi. rewrite Forall_forall in Hn. apply Hn, nth_In, Hi. }
  funelim (F64.bisect_loop a x lo hi); intros Hle Hhi Hlo Hup; cbv zeta.
  - (* the loop is over *)
    assert (lo = hi) by lia. subst hi.
    repeat split; auto.
  - (* x < a[mid]: the upper bound moves down to mid *)
    pose proof (Nat.div_mod_eq (lo + hi) 2) as E.
    pose proof (Nat.mod_upper_bound (lo + hi) 2) as U.
    destruct H as [H1 [H2 [H3 H4]]]; try assumption; try lia.
    + intros i Hi Hi'.
      apply (f64_ltb_nlt_trans x (nth ((lo + hi) / 2) a PrimFloat.zero));
        [assumption | | apply Num, Hi'].
      apply f64_strongly_sorted_nth; [assumption | lia | lia].
    + repeat split; auto; lia.
  - (* not (x < a[mid]): the lower bound moves up past mid *)
    pose proof (Nat.div_mod_eq (lo + hi) 2) as E.
    pose proof (Nat.mod_upper_bound (lo + hi) 2) as U.
    destruct H as [H1 [H2 [H3 H4]]]; try assumption; try lia.
    + intros i Hi.
      destruct (PrimFloat.ltb x (nth i a PrimFloat.zero)) eqn:L;
        [| reflexivity].
      rewrite <- Heq. symmetry.
      apply (f64_ltb_nlt_trans x (nth i a PrimFloat.zero));
        [exact L | | apply Num; lia].
      apply f64_strongly_sorted_nth; [assumption | lia | lia].
    + repeat split; auto; lia.
Qed.

Lemma f64_bisect_right_spec (a : list PrimFloat.float) (x : PrimFloat.float) :
  StronglySorted (fun u v => PrimFloat.ltb v u = false) a ->
  Forall (fun t => PrimFloat.is_nan t = false) a ->
  let r := F64.bisect_right a x in
  (r <= length a)%nat /\
  (forall i, (i < r)%nat -> PrimFloat.ltb x (nth i a PrimFloat.zero) = false) /\
  (forall i, (r <= i)%nat -> (i < length a)%nat ->
             PrimFloat.ltb x (nth i a PrimFloat.zero) = true).
Proof.
  intros Hs Hn. unfold F64.bisect_right.
  destruct (f64_bisect_loop_spec a x 0 (length a) Hs Hn) as [_ [H2 [H3 H4]]];
    try lia.
  repeat split; assumption.
Qed.

Lemma f64_nth_map_time (l : list F64.AnimationKeyframe) (i : nat)
    (kf : F64.AnimationKeyframe) :
  nth_error l i = Some kf ->
  nth i (map F64.time l) PrimFloat.zero = F64.time kf.
Proof.
  intros E.
  rewrite (nth_indep _ PrimFloat.zero (F64.time kf))
    by (rewrite length_map; apply nth_error_Some; congruence).
  rewrite map_nth. f_equal. apply nth_error_nth, E.
Qed.

(** X21.  In binary64, on keyframe times that are numbers (no NaN): when
    the index found by the right-biased search in the sorted times lies
    strictly between 0 and the length, the keyframes read at [idx - 1] and
    [idx] bracket the source time, [kf_a.time <= x < kf_b.time], so
    [kf_a.time < kf_b.time].  The comparisons are those of the floats; no
    rounding is involved. *)
Theorem f64_interpolation_bracket_order (kfs : list F64.AnimationKeyframe)
    (x : PrimFloat.float) :
  (forall kf, In kf kfs -> PrimFloat.is_nan (F64.time kf) = false) ->
  let sorted_kfs := F64.sorted F64.time kfs in
  let idx := F64.bisect_right (map F64.time sorted_kfs) x in
  (0 < idx < length sorted_kfs)%nat ->
  exists kf_a kf_b,
    getitem sorted_kfs (Z.of_nat idx - 1) = Ok kf_a /\
    getitem sorted_kfs (Z.of_nat idx) = Ok kf_b /\
    PrimFloat.leb (F64.time kf_a) x = true /\
    PrimFloat.ltb x (F64.time kf_b) = true /\
    PrimFloat.ltb (F64.time kf_a) (F64.time kf_b) = true.
Proof.
  intros Hnum sorted_kfs idx [H0 Hl].
  assert (N : Forall (fun t => PrimFloat.is_nan t = false)
                     (map F64.time kfs)).
  { apply Forall_forall. intros t Ht. apply in_map_iff in Ht.
    destruct Ht as [kf [<- Hin]]. apply Hnum, Hin. }
  destruct (f64_sorted_sorted F64.time kfs N) as [Hs Hn].
  fold sorted_kfs in Hs, Hn.
  destruct (f64_bisect_right_spec (map F64.time sorted_kfs) x Hs Hn)
    as [_ [Blo Bup]].
  fold idx in Blo, Bup.
  destruct (nth_error sorted_kfs (idx - 1)) as [kf_a |] eqn:Ea;
    [| apply nth_error_None in Ea; lia].
  destruct (nth_error sorted_kfs idx) as [kf_b |] eqn:Eb;
    [| apply nth_error_None in Eb; lia].
  assert (Ga : getitem sorted_kfs (Z.of_nat idx - 1) = Ok kf_a).
  { replace (Z.of_nat idx - 1)%Z with (Z.of_nat (idx - 1)) by lia.
    apply getitem_nth_error, Ea. }
  pose proof (getitem_nth_error _ _ _ Eb) as Gb.
  assert (Hb : PrimFloat.ltb x (F64.time kf_b) = true).
  { rewrite <- (f64_nth_map_time _ _ _ Eb). apply Bup; [lia |].
    rewrite length_map. exact Hl. }
  assert (Ha : PrimFloat.ltb x (F64.time kf_a) = false).
  { rewrite <- (f64_nth_map_time _ _ _ Ea). apply Blo. lia. }
  assert (Na : PrimFloat.is_nan (F64.time kf_a) = false).
  { apply Hnum. apply (f64_sorted_In F64.time).
    apply nth_error_In with (n := (idx - 1)%nat). exact Ea. }
  destruct (f64_ltb_number _ _ Hb) as [Nx Nb].
  exists kf_a, kf_b.
  split; [exact Ga |]. split; [exact Gb |].
  split; [apply f64_nlt_leb; assumption |]. split; [exact Hb |].
  destruct (PrimFloat.ltb (F64.time kf_a) (F64.time kf_b)) eqn:L;
    [reflexivity |].
  (* not (a < b), x < b, a a number: x < a, against Ha *)
  rewrite <- Ha.
  apply (f64_ltb_nlt_trans x (F64.time kf_b) (F64.time kf_a) Hb L Na).
Qed.

Lemma f64_interpolation_bracket_order_witness :
  let t_a := PrimFloat.div (F64.of_int 1) (F64.of_int (2 ^ 51)) in
  let t_b := PrimFloat.add (F64.of_int 6)
               (PrimFloat.div (F64.of_int 1) (F64.of_int (2 ^ 50))) in
  let kfs := [F64.at_time t_b; F64.at_time t_a] in
  let x := F64.of_int 6 in
  let sorted_kfs := F64.sorted F64.time kfs in
  let idx := F64.bisect_right (map F64.time sorted_kfs) x in
  (forall kf, In kf kfs -> PrimFloat.is_nan (F64.time kf) = false) /\
  (0 < idx < length sorted_kfs)%nat /\
  exists kf_a kf_b,
    getitem sorted_kfs (Z.of_nat idx - 1) = Ok kf_a /\
    getitem sorted_kfs (Z.of_nat idx) = Ok kf_b /\
    PrimFloat.leb (F64.time kf_a) x = true /\
    PrimFloat.ltb x (F64.time kf_b) = true /\
    PrimFloat.ltb (F64.time kf_a) (F64.time kf_b) = true.
Proof.
  intros t_a t_b kfs x sorted_kfs idx.
  assert (H1 : forall kf, In kf kfs ->
                          PrimFloat.is_nan (F64.time kf) = false).
  { intros kf [<- | [<- | []]]; vm_compute; reflexivity. }
  assert (H2 : (0 < idx < length sorted_kfs)%nat) by (vm_compute; lia).
  split; [exact H1 |]. split; [exact H2 |].
  exact (f64_interpolation_bracket_order kfs x H1 H2).
Defined.

(* ================================================================= *)
(** * Binary64: when the animation range fails *)

(** X3.  In binary64, [get_animation_range] raises exactly when the
    recording rate is zero ([ZeroDivisionError]) or, the rate not being zero,
    when [round()] raises on the product
    [(max_time / recording_fps) * target_fps], which it does with
    [OverflowError] on an infinity and [ValueError] on NaN; it never raises
    [IndexError].  Without nodes, at a recording rate that is a number other
    than zero and a finite target rate, the range is
    [(start_frame, start_frame)]. *)
Theorem f64_animation_range_raises_iff (nodes : list F64.SceneNode)
    (recording_fps target_fps : PrimFloat.float) (start_frame : Z)
    (e : PyError) :
  let product :=
    PrimFloat.mul (PrimFloat.div (F64.max_time_of nodes) recording_fps)
                  target_fps in
  (F64.get_animation_range nodes recording_fps target_fps start_frame
     = Raise e <->
   (PrimFloat.eqb recording_fps PrimFloat.zero = true /\
    e = ZeroDivisionError) \/
   (PrimFloat.eqb recording_fps PrimFloat.zero = false /\
    F64.round product = Raise e)) /\
  (F64.get_animation_range nodes recording_fps target_fps start_frame
     = Raise e ->
   e = ZeroDivisionError \/ e = OverflowError \/ e = ValueError) /\
  (PrimFloat.eqb recording_fps PrimFloat.zero = false ->
   PrimFloat.is_nan recording_fps = false ->
   PrimFloat.is_finite target_fps = true ->
   F64.get_animation_range [] recording_fps target_fps start_frame
     = Ok (start_frame, start_frame)).
Proof.
  intros product.
  assert (Main :
    F64.get_animation_range nodes recording_fps target_fps start_frame
      = Raise e <->
    (PrimFloat.eqb recording_fps PrimFloat.zero = true /\
     e = ZeroDivisionError) \/
    (PrimFloat.eqb recording_fps PrimFloat.zero = false /\
     F64.round product = Raise e)).
  { unfold F64.get_animation_range.
    destruct (PrimFloat.eqb recording_fps PrimFloat.zero) eqn:Hr.
    - rewrite (f64_div_zero _ _ Hr). cbn [bind]. split.
      + intros E. injection E as <-. left. split; reflexivity.
      + intros [[_ ->] | [H _]]; [reflexivity | discriminate].
    - rewrite (f64_div_ok _ _ Hr). cbn [bind]. fold product.
      destruct (F64.round product) as [r | e'] eqn:Er; cbn [bind]; split.
      + discriminate.
      + intros [[H _] | [_ H]]; discriminate.
      + intros E. injection E as <-. right. split; reflexivity.
      + intros [[H _] | [_ H]]; [discriminate |].
        injection H as <-. reflexivity. }
  split; [exact Main |]. split.
  - intros E. apply Main in E. destruct E as [[_ ->] | [_ H]]; [auto |].
    right. apply (f64_to_integer_errors _ _ _ H).
  - intros Hr Hn Hf. unfold F64.get_animation_range.
    change (F64.max_time_of []) with PrimFloat.zero.
    rewrite (f64_div_ok _ _ Hr). cbn [bind].
    rewrite (f64_round_zero_product PrimFloat.zero recording_fps target_fps
               f64_eqb_zero_zero Hr Hn Hf).
    cbn [bind]. rewrite Z.add_0_r. reflexivity.
Qed.
